(** * Group-fairness metrics over a pandas table

    A shallow embedding of the fairness scripts [fair.py], [fair2.py] and
    [faircompas.py].  The scripts are thin layers over pandas, so the
    development has two parts: a small executable model of the pandas
    operations the scripts call (column access, boolean-mask selection,
    [groupby(...).size()], index-aligned division, [fillna], [unique],
    grouped [mean] and [unstack]) and, on top of it, the functions of the
    three scripts, line by line.

    Numbers.  Python floats are idealised as exact rationals ([Qc], the
    canonical rationals, so that equal numbers are equal keys).  Rounding
    of float64 is not modelled.  Python's [bool] is a subclass of [int]
    ([True == 1], same hash), so a boolean cell is the number 0 or 1. *)

From Stdlib Require Import QArith Qcanon.
From stdpp Require Import base numbers strings list gmap fin_maps.

Local Open Scope Qc_scope.

(** ** Exceptions and the error monad *)

(** The Python exceptions that the modelled code can raise. *)
Inductive exn : Type :=
  | KeyError            (* a column name that the table does not have *)
  | TypeError           (* unhashable group key, non-numeric mean *)
  | ValueError          (* [max()] / [min()] of an empty sequence *)
  | ZeroDivisionError.  (* [int / int] with a zero divisor *)

Inductive result (A : Type) : Type :=
  | Ok (a : A)
  | Raise (e : exn).
Arguments Ok {A} a.
Arguments Raise {A} e.

Global Instance result_bind : MBind result := λ A B k m,
  match m with
  | Ok a => k a
  | Raise e => Raise e
  end.

Definition is_ok {A : Type} (m : result A) : Prop := ∃ a, m = Ok a.

(** ** Values and tables *)

(** A hashable cell: [None]/[NaN], a number or a string. *)
Inductive scalar : Type :=
  | SNull
  | SNum (q : Qc)
  | SStr (s : string).

(** A cell of the table: a scalar or a small list of scalars. *)
Inductive value : Type :=
  | Scalar (s : scalar)
  | VList (l : list scalar).

Global Instance scalar_eq_dec : EqDecision scalar.
Proof. solve_decision. Defined.

Global Instance value_eq_dec : EqDecision value.
Proof. solve_decision. Defined.

Global Instance scalar_countable : Countable scalar.
Proof.
  refine (inj_countable'
    (λ s, match s with
          | SNull => inl ()
          | SNum q => inr (inl q)
          | SStr t => inr (inr t)
          end)
    (λ c, match c with
          | inl () => SNull
          | inr (inl q) => SNum q
          | inr (inr t) => SStr t
          end) _).
  by intros [].
Defined.

Definition Null : value := Scalar SNull.
Definition Num (z : Z) : value := Scalar (SNum (Qc_of_Z z)).
Definition Str (s : string) : value := Scalar (SStr s).

(** The int literals [1] and [0]. *)
Definition one : scalar := SNum (Qc_of_Z 1).
Definition zero : scalar := SNum (Qc_of_Z 0).

(** A row is a record of cells by column name.  A table is its column list
    and its rows; a cell that a row does not give is missing ([NaN]), as
    when pandas builds a frame from records. *)
Record DataFrame : Type := mkDataFrame {
  columns : list string;
  rows : list (gmap string value)
}.

Definition cell (c : string) (r : gmap string value) : value :=
  default Null (r !! c).

(** ** The pandas operations used by the scripts *)

(** [df[c]]: the column as a sequence of cells; [KeyError] when absent. *)
Definition getitem (df : DataFrame) (c : string) : result (list value) :=
  if decide (c ∈ columns df) then Ok (cell c <$> rows df) else Raise KeyError.

(** [x == v] on one cell, as pandas evaluates it elementwise: a missing cell
    equals nothing (not even a missing [v]), a list cell is not equal to a
    scalar, and two scalars are compared without any cast (the number 1 and
    the string "1" differ). *)
Definition py_eq (x : value) (v : scalar) : bool :=
  match x, v with
  | Scalar SNull, _ => false
  | _, SNull => false
  | Scalar a, b => bool_decide (a = b)
  | VList _, _ => false
  end.

(** [col == v]: the boolean mask. *)
Definition eq_mask (col : list value) (v : scalar) : list bool :=
  (λ x, py_eq x v) <$> col.

(** [m1 & m2] on masks. *)
Definition mask_and (m1 m2 : list bool) : list bool :=
  zip_with andb m1 m2.

(** [df[mask]]: the rows whose mask entry is true, columns unchanged. *)
Fixpoint select {A : Type} (l : list A) (mask : list bool) : list A :=
  match l, mask with
  | x :: l', b :: mask' => if b then x :: select l' mask' else select l' mask'
  | _, _ => []
  end.

Definition getitem_mask (df : DataFrame) (mask : list bool) : DataFrame :=
  mkDataFrame (columns df) (select (rows df) mask).

(** [df[c] = col]: every row gets its new cell; the column is appended to
    the column list when it is new. *)
Definition setitem (df : DataFrame) (c : string) (col : list value)
  : DataFrame :=
  mkDataFrame
    (if decide (c ∈ columns df) then columns df else columns df ++ [c])
    (zip_with (λ r x, <[c := x]> r) (rows df) col).

(** [df.shape[0]]. *)
Definition shape0 (df : DataFrame) : nat := length (rows df).

(** A group key must be hashable: a list cell raises [TypeError]. *)
Definition hashable (x : value) : result scalar :=
  match x with
  | Scalar s => Ok s
  | VList _ => Raise TypeError
  end.

Fixpoint hashables (col : list value) : result (list scalar) :=
  match col with
  | [] => Ok []
  | x :: col' => s ← hashable x; ks ← hashables col'; Ok (s :: ks)
  end.

(** The counting at the heart of [groupby(c).size()]: one entry per
    distinct key, rows with a missing key dropped ([dropna=True], the
    default). *)
Definition count_key (k : scalar) (m : gmap scalar nat) : gmap scalar nat :=
  match k with
  | SNull => m
  | _ => <[k := S (default 0%nat (m !! k))]> m
  end.

Definition size_by (keys : list scalar) : gmap scalar nat :=
  foldr count_key ∅ keys.

(** [df.groupby(c).size()]: a Series of counts indexed by group key. *)
Definition groupby_size (df : DataFrame) (c : string)
  : result (gmap scalar nat) :=
  col ← getitem df c;
  keys ← hashables col;
  Ok (size_by keys).

Definition Qc_of_nat (n : nat) : Qc := Qc_of_Z (Z.of_nat n).

(** [s1 / s2] on two Series of counts: pandas aligns the two indexes on
    their union; a key missing on either side gives [NaN] ([None] here).
    The divisor is a group size, hence positive wherever it exists, so
    numpy's [inf] for a zero divisor is never produced. *)
Definition series_truediv (s1 s2 : gmap scalar nat)
  : gmap scalar (option Qc) :=
  merge (λ o1 o2,
           match o1, o2 with
           | Some n, Some d => Some (Some (Qc_of_nat n / Qc_of_nat d))
           | None, None => None
           | _, _ => Some None
           end) s1 s2.

(** [s.fillna(z)]. *)
Definition fillna (z : Qc) (s : gmap scalar (option Qc)) : gmap scalar Qc :=
  default z <$> s.

(** [d.values()] of a dict. *)
Definition values {A : Type} (d : gmap scalar A) : list A :=
  (map_to_list d).*2.

(** Python's [max] and [min] of a sequence: [ValueError] when empty, and
    the running value is replaced only by a strictly better one. *)
Definition py_max (l : list Qc) : result Qc :=
  match l with
  | [] => Raise ValueError
  | x :: l' => Ok (foldl (λ acc y, if decide (acc < y) then y else acc) x l')
  end.

Definition py_min (l : list Qc) : result Qc :=
  match l with
  | [] => Raise ValueError
  | x :: l' => Ok (foldl (λ acc y, if decide (y < acc) then y else acc) x l')
  end.

(** The literal [0.1]. *)
Definition threshold : Qc := Q2Qc (1 # 10).

(** [col.value_counts()]: the number of rows per distinct value, missing
    values left out ([dropna=True]); a list cell is unhashable.  The Series
    is displayed by decreasing count; the order of equal counts is not
    fixed by pandas, and the Series is modelled by its map. *)
Definition value_counts (col : list value) : result (gmap scalar nat) :=
  keys ← hashables col;
  Ok (size_by keys).

(** What [explore_dataset] prints, one constructor per [print] call. *)
Inductive shown : Type :=
  | ColumnsHeading                         (* "Colonne disponibili nel dataset:" *)
  | ColumnList (cols : list string)        (* df.columns.tolist() *)
  | CountsHeading                          (* "Valori unici e conteggi nella colonna target:" *)
  | ValueCounts (m : gmap scalar nat)      (* df[...].value_counts() *)
  | TargetAbsent.                          (* "La colonna 'target' non è presente nel dataset." *)

(** ** The statistical parity computation, shared by the three scripts *)

(** Lines 19-23 of [statistical_parity_check], the same in the three
    scripts: the Series of proportions per sensitive group. *)
Definition proportions (df : DataFrame) (sensitive_column target_column : string)
    (target_value : scalar) : result (gmap scalar Qc) :=
  tcol ← getitem df target_column;
  num ← groupby_size (getitem_mask df (eq_mask tcol target_value))
                     sensitive_column;
  den ← groupby_size df sensitive_column;
  Ok (fillna 0 (series_truediv num den)).

(** Lines 26-28: the spread of the proportions. *)
Definition max_disparity (disparities : gmap scalar Qc) : result Qc :=
  hi ← py_max (values disparities);
  lo ← py_min (values disparities);
  Ok (hi - lo).

(** ** fair.py *)

Module Fair.

(** Lines 5-30 of fair.py (the same text is lines 5-30 of fair2.py). *)
Definition statistical_parity_check (df : DataFrame)
    (sensitive_column target_column : string) (target_value : scalar)
  : result (gmap scalar Qc * bool) :=
  disparities ← proportions df sensitive_column target_column target_value;
  d ← max_disparity disparities;
  let fairness := bool_decide (d ≤ threshold) in
  Ok (disparities, fairness).

(** [isinstance(x, list)]. *)
Definition isinstance_list (x : value) : bool :=
  match x with
  | VList _ => true
  | Scalar _ => false
  end.

(** [len(x)] and [x[0]]; the code reaches them only behind
    [isinstance(x, list)], and [x[0]] only with [len(x) > 0]. *)
Definition len (x : value) : nat :=
  match x with
  | VList l => length l
  | Scalar _ => 0
  end.

Definition item0 (x : value) : value :=
  match x with
  | VList (a :: _) => Scalar a
  | _ => Null
  end.

(** The lambda of line 38:
    [x[0] if isinstance(x, list) and len(x) > 0 else None]. *)
Definition first_or_none (x : value) : value :=
  if isinstance_list x && bool_decide (0 < len x)%nat then item0 x else Null.

(** Lines 32-39 of fair.py (53-60 of fair2.py).  The frame is updated in
    place and returned; the model returns the updated frame. *)
Definition preprocess_target_column (df : DataFrame) (target_column : string)
  : result DataFrame :=
  col ← getitem df target_column;
  if existsb isinstance_list col then
    col' ← getitem df target_column;
    Ok (setitem df target_column (first_or_none <$> col'))
  else Ok df.

(** Lines 41-46 of fair.py. *)
Definition explore_dataset (df : DataFrame) : list shown * result () :=
  ([ColumnsHeading; ColumnList (columns df)], Ok ()).

(** What [analyze_fairness] prints, one constructor per [print] call. *)
Inductive line : Type :=
  | AnalysisFor (c : string)               (* "Analisi per la colonna sensibile: c" *)
  | Disparities (d : gmap scalar Qc)       (* "Disparità per gruppo: d" *)
  | IsFair (b : bool)                      (* "Il dataset è fair? b" *)
  | NotFound (c : string).                 (* "Colonna sensibile 'c' non trovata nel dataset." *)

(** Lines 48-65: the loop over the sensitive columns.  The result is the
    text printed so far together with the outcome of the call: [Ok ()] when
    the loop ran to its end, [Raise e] when an exception left it. *)
Fixpoint analyze_fairness (df : DataFrame) (sensitive_columns : list string)
    (target_column : string) (target_value : scalar)
  : list line * result () :=
  match sensitive_columns with
  | [] => ([], Ok ())
  | sensitive_column :: rest =>
      if decide (sensitive_column ∈ columns df) then
        match statistical_parity_check df sensitive_column
                target_column target_value with
        | Ok (disparities, fairness) =>
            let '(out, r) :=
              analyze_fairness df rest target_column target_value in
            (AnalysisFor sensitive_column :: Disparities disparities
               :: IsFair fairness :: out, r)
        | Raise e => ([AnalysisFor sensitive_column], Raise e)
        end
      else
        let '(out, r) :=
          analyze_fairness df rest target_column target_value in
        (NotFound sensitive_column :: out, r)
  end.

End Fair.

(** ** Printing and plotting of fair2.py and faircompas.py *)

(** What the orchestrators of fair2.py and faircompas.py do to the outside:
    the lines of fair.py, two more messages, and the bar chart.  The calls
    to matplotlib ([plt.bar] ... [plt.show()]) are one event that returns;
    what matplotlib does with the data is outside the scripts. *)
Inductive event : Type :=
  | Printed (l : Fair.line)
  | NoData (c : string)                    (* "Errore: Nessun dato valido per la colonna sensibile 'c'." *)
  | NoChart (c : string)                   (* "Grafico non generato: tutte le proporzioni per c sono uguali a 0." *)
  | BarChart (c : string) (bars : gmap scalar Qc).

(** [plot_disparities], lines 71-82 of fair2.py and 84-95 of
    faircompas.py (the same text). *)
Definition plot_disparities (disparities : gmap scalar Qc)
    (sensitive_column : string) : list event :=
  if forallb (λ value, bool_decide (value = 0)) (values disparities)
  then [NoChart sensitive_column]
  else [BarChart sensitive_column disparities].

(** ** faircompas.py *)

Module FairCompas.

(** Lines 53-82: the same computation with a guard on the empty dict
    (the message printed under the guard is not modelled). *)
Definition statistical_parity_check (df : DataFrame)
    (sensitive_column target_column : string) (target_value : scalar)
  : result (gmap scalar Qc * bool) :=
  disparities ← proportions df sensitive_column target_column target_value;
  if decide (disparities = ∅) then Ok (∅, true)
  else
    d ← max_disparity disparities;
    let fairness := bool_decide (d ≤ threshold) in
    Ok (disparities, fairness).

(** Lines 53-82 again, with the message of line 75: what is printed and
    what is returned. *)
Definition statistical_parity_check_io (df : DataFrame)
    (sensitive_column target_column : string) (target_value : scalar)
  : list event * result (gmap scalar Qc * bool) :=
  match proportions df sensitive_column target_column target_value with
  | Raise e => ([], Raise e)
  | Ok disparities =>
      if decide (disparities = ∅) then ([NoData sensitive_column], Ok (∅, true))
      else
        ([], d ← max_disparity disparities;
             let fairness := bool_decide (d ≤ threshold) in
             Ok (disparities, fairness))
  end.

(** Lines 97-116: the loop, which prints the result of a column only when
    its dict is not empty ([if disparities:]). *)
Fixpoint analyze_fairness (df : DataFrame) (sensitive_columns : list string)
    (target_column : string) (target_value : scalar)
  : list event * result () :=
  match sensitive_columns with
  | [] => ([], Ok ())
  | sensitive_column :: rest =>
      if decide (sensitive_column ∈ columns df) then
        let '(out0, r0) :=
          statistical_parity_check_io df sensitive_column
            target_column target_value in
        match r0 with
        | Ok (disparities, fairness) =>
            let '(out, r) :=
              analyze_fairness df rest target_column target_value in
            (Printed (Fair.AnalysisFor sensitive_column) :: out0
               ++ (if decide (disparities = ∅) then []
                   else Printed (Fair.Disparities disparities)
                          :: Printed (Fair.IsFair fairness)
                          :: plot_disparities disparities sensitive_column)
               ++ out, r)
        | Raise e => (Printed (Fair.AnalysisFor sensitive_column) :: out0, Raise e)
        end
      else
        let '(out, r) :=
          analyze_fairness df rest target_column target_value in
        (Printed (Fair.NotFound sensitive_column) :: out, r)
  end.

(** Lines 41-51: the counts are shown only when the table has a column
    named "target". *)
Definition explore_dataset (df : DataFrame) : list shown * result () :=
  let out := [ColumnsHeading; ColumnList (columns df); CountsHeading] in
  if decide ("target" ∈ columns df) then
    match col ← getitem df "target"; value_counts col with
    | Ok m => (out ++ [ValueCounts m], Ok ())
    | Raise e => (out, Raise e)
    end
  else (out ++ [TargetAbsent], Ok ()).

End FairCompas.

(** ** fair2.py *)

(** [col.unique()]: the distinct cells in order of first appearance; the
    missing value is kept (once); a list cell is unhashable. *)
Fixpoint uniq (seen : list scalar) (l : list scalar) : list scalar :=
  match l with
  | [] => []
  | x :: l' =>
      if decide (x ∈ seen) then uniq seen l' else x :: uniq (x :: seen) l'
  end.

Definition unique (col : list value) : result (list scalar) :=
  ks ← hashables col;
  Ok (uniq [] ks).

(** Python's [n / d] on two ints. *)
Definition py_truediv (n d : nat) : result Qc :=
  if decide (d = 0%nat) then Raise ZeroDivisionError
  else Ok (Qc_of_nat n / Qc_of_nat d).

(** A cell read as a number for [mean]: missing cells are skipped, a
    string or a list cannot be averaged. *)
Definition numeric (x : value) : result (option Qc) :=
  match x with
  | Scalar SNull => Ok None
  | Scalar (SNum q) => Ok (Some q)
  | Scalar (SStr _) => Raise TypeError
  | VList _ => Raise TypeError
  end.

(** One row of [groupby([a, b])[t].mean()]: the running sum and count of
    the row's group.  A row with a missing key is dropped before its
    target is looked at. *)
Definition mean_step (ka kb : scalar) (x : value)
    (acc : gmap (scalar * scalar) (Qc * nat))
  : result (gmap (scalar * scalar) (Qc * nat)) :=
  match ka, kb with
  | SNull, _ => Ok acc
  | _, SNull => Ok acc
  | _, _ =>
      o ← numeric x;
      let '(sm, n) := default (0, 0%nat) (acc !! (ka, kb)) in
      Ok (<[(ka, kb) := match o with
                        | Some q => (sm + q, S n)
                        | None => (sm, n)
                        end]> acc)
  end.

Fixpoint mean_acc (l : list (value * value * value))
  : result (gmap (scalar * scalar) (Qc * nat)) :=
  match l with
  | [] => Ok ∅
  | (a, b, x) :: l' =>
      acc ← mean_acc l';
      ka ← hashable a;
      kb ← hashable b;
      mean_step ka kb x acc
  end.

(** The mean of a group from its sum and count; [NaN] when nothing was
    counted. *)
Definition mean_of (sc : Qc * nat) : option Qc :=
  if decide (sc.2 = 0%nat) then None else Some (sc.1 / Qc_of_nat sc.2).

(** [df.groupby([a, b])[t].mean()]: a Series indexed by the pairs that
    occur; the mean of a group whose targets are all missing is [NaN]. *)
Definition groupby2_mean (df : DataFrame) (a b t : string)
  : result (gmap (scalar * scalar) (option Qc)) :=
  ca ← getitem df a;
  cb ← getitem df b;
  ct ← getitem df t;
  acc ← mean_acc (zip (zip ca cb) ct);
  Ok (mean_of <$> (acc : gmap (scalar * scalar) (Qc * nat))).

(** [ser.unstack()]: the inner index level becomes the columns.  The frame
    is dense: one row per outer key, one column per inner key, and [NaN]
    ([None]) wherever the Series had no entry. *)
Definition unstack (ser : gmap (scalar * scalar) (option Qc))
  : gmap scalar (gmap scalar (option Qc)) :=
  let index : gset scalar := set_map fst (dom ser) in
  let cols : gset scalar := set_map snd (dom ser) in
  map_imap (λ a _,
      Some (map_imap (λ b _, Some (mjoin (ser !! (a, b))))
                     (gset_to_gmap () cols)))
    (gset_to_gmap () index).

(** The number held by the frame at row [a], column [b], if any: [None]
    when the frame has no such row or column or holds [NaN] there. *)
Definition entry (M : gmap scalar (gmap scalar (option Qc))) (a b : scalar)
  : option Qc :=
  row ← M !! a; x ← row !! b; x.

Module Fair2.

Definition statistical_parity_check := Fair.statistical_parity_check.
Definition preprocess_target_column := Fair.preprocess_target_column.

(** Lines 32-39; [target_value] is not used, the [print]s are not
    modelled. *)
Definition conditional_statistical_parity (df : DataFrame)
    (sensitive_column target_column : string) (target_value : scalar)
    (control_column : string)
  : result (gmap scalar (gmap scalar (option Qc))) :=
  ser ← groupby2_mean df sensitive_column control_column target_column;
  let grouped := unstack ser in
  Ok grouped.

(** The two rates of one group. *)
Record rates : Type := mkRates { TPR : Qc; FPR : Qc }.

(** Lines 47-49: the body of the loop for one [group]. *)
Definition group_rates (df : DataFrame)
    (sensitive_column target_column prediction_column : string)
    (group : scalar) : result rates :=
  scol ← getitem df sensitive_column;
  let group_data := getitem_mask df (eq_mask scol group) in
  t1 ← getitem group_data target_column;
  p1 ← getitem group_data prediction_column;
  let tp := shape0 (getitem_mask group_data
                      (mask_and (eq_mask t1 one) (eq_mask p1 one))) in
  t2 ← getitem group_data target_column;
  let pos := shape0 (getitem_mask group_data (eq_mask t2 one)) in
  tpr ← py_truediv tp pos;
  t3 ← getitem group_data target_column;
  p3 ← getitem group_data prediction_column;
  let fp := shape0 (getitem_mask group_data
                      (mask_and (eq_mask t3 zero) (eq_mask p3 one))) in
  t4 ← getitem group_data target_column;
  let neg := shape0 (getitem_mask group_data (eq_mask t4 zero)) in
  fpr ← py_truediv fp neg;
  Ok (mkRates tpr fpr).

(** Lines 46-50: the loop, with the dict [metrics] threaded through. *)
Fixpoint metrics_loop (df : DataFrame)
    (sensitive_column target_column prediction_column : string)
    (groups : list scalar) (metrics : gmap scalar rates)
  : result (gmap scalar rates) :=
  match groups with
  | [] => Ok metrics
  | group :: rest =>
      r ← group_rates df sensitive_column target_column
            prediction_column group;
      metrics_loop df sensitive_column target_column prediction_column
        rest (<[group := r]> metrics)
  end.

(** Lines 41-51. *)
Definition evaluate_model_performance (df : DataFrame)
    (sensitive_column target_column prediction_column : string)
  : result (gmap scalar rates) :=
  scol ← getitem df sensitive_column;
  groups ← unique scol;
  metrics_loop df sensitive_column target_column prediction_column
    groups ∅.

(** Lines 62-69: the counts are those of the column named "labels",
    whatever the target column is. *)
Definition explore_dataset (df : DataFrame) : list shown * result () :=
  let out := [ColumnsHeading; ColumnList (columns df); CountsHeading] in
  match col ← getitem df "labels"; value_counts col with
  | Ok m => (out ++ [ValueCounts m], Ok ())
  | Raise e => (out, Raise e)
  end.

(** Lines 84-102: the loop of fair.py with the chart after each result. *)
Fixpoint analyze_fairness (df : DataFrame) (sensitive_columns : list string)
    (target_column : string) (target_value : scalar)
  : list event * result () :=
  match sensitive_columns with
  | [] => ([], Ok ())
  | sensitive_column :: rest =>
      if decide (sensitive_column ∈ columns df) then
        match statistical_parity_check df sensitive_column
                target_column target_value with
        | Ok (disparities, fairness) =>
            let '(out, r) :=
              analyze_fairness df rest target_column target_value in
            (Printed (Fair.AnalysisFor sensitive_column)
               :: Printed (Fair.Disparities disparities)
               :: Printed (Fair.IsFair fairness)
               :: plot_disparities disparities sensitive_column ++ out, r)
        | Raise e => ([Printed (Fair.AnalysisFor sensitive_column)], Raise e)
        end
      else
        let '(out, r) :=
          analyze_fairness df rest target_column target_value in
        (Printed (Fair.NotFound sensitive_column) :: out, r)
  end.

End Fair2.

(** * Quantities the properties are stated with *)

(** The key of a hashable cell. *)
Definition key_of (x : value) : scalar :=
  match x with
  | Scalar s => s
  | VList _ => SNull
  end.

Definition is_scalar (x : value) : Prop := ∃ k, x = Scalar k.

(** Number of occurrences of a key. *)
Definition occ (k : scalar) (ks : list scalar) : nat :=
  length (filter (λ x, x = k) ks).

(** The rows of group [g], and those of them that hit the target value. *)
Definition group_size (df : DataFrame) (s : string) (g : scalar) : nat :=
  length (filter (λ r, cell s r = Scalar g) (rows df)).

Definition group_hits (df : DataFrame) (s t : string) (v g : scalar) : nat :=
  length (filter (λ r, cell s r = Scalar g ∧ py_eq (cell t r) v) (rows df)).

(** Every cell of column [c] is hashable. *)
Definition scalar_column (df : DataFrame) (c : string) : Prop :=
  Forall (λ r, is_scalar (cell c r)) (rows df).

(** Value [g] occurs in column [c]. *)
Definition occurs (df : DataFrame) (c : string) (g : scalar) : Prop :=
  ∃ r, r ∈ rows df ∧ cell c r = Scalar g.

(** The Series that lines 19-23 build when nothing raises. *)
Definition proportion_series (df : DataFrame) (s t : string)
    (v : scalar) : gmap scalar Qc :=
  fillna 0
    (series_truediv
       (size_by (key_of <$> (cell s <$>
                   filter (λ r, py_eq (cell t r) v) (rows df))))
       (size_by (key_of <$> (cell s <$> rows df)))).

(** [hi] and [lo] are the greatest and the least proportion of [m]. *)
Definition extremes (m : gmap scalar Qc) (hi lo : Qc) : Prop :=
  (∃ g, m !! g = Some hi) ∧ (∃ g, m !! g = Some lo)
  ∧ ∀ g p, m !! g = Some p → lo ≤ p ≤ hi.

Global Instance is_scalar_dec x : Decision (is_scalar x).
Proof.
  refine (match x with Scalar k => left _ | VList _ => right _ end).
  - by exists k.
  - by intros [k ?].
Defined.

Global Instance scalar_column_dec df c : Decision (scalar_column df c).
Proof. unfold scalar_column. apply _. Defined.

(** Rows whose sensitive cell is missing, removed. *)
Definition dropna (df : DataFrame) (s : string) : DataFrame :=
  mkDataFrame (columns df) (filter (λ r, cell s r ≠ Null) (rows df)).

(** Counts of the performance evaluator for group [g]: the rows of the
    group with target [1] (resp. [0]), and those of them predicted [1].
    All comparisons are the [==] of pandas. *)
Definition positives (df : DataFrame) (s t : string) (g : scalar) : nat :=
  length (filter (λ r, py_eq (cell t r) one)
            (filter (λ r, py_eq (cell s r) g) (rows df))).

Definition true_positives (df : DataFrame) (s t p : string) (g : scalar)
  : nat :=
  length (filter (λ r, py_eq (cell t r) one && py_eq (cell p r) one)
            (filter (λ r, py_eq (cell s r) g) (rows df))).

Definition negatives (df : DataFrame) (s t : string) (g : scalar) : nat :=
  length (filter (λ r, py_eq (cell t r) zero)
            (filter (λ r, py_eq (cell s r) g) (rows df))).

Definition false_positives (df : DataFrame) (s t p : string) (g : scalar)
  : nat :=
  length (filter (λ r, py_eq (cell t r) zero && py_eq (cell p r) one)
            (filter (λ r, py_eq (cell s r) g) (rows df))).

(** The rows of the cell [(a, b)] of the conditional matrix, the sum of
    their targets and their mean. *)
Definition cell_rows (df : DataFrame) (s c : string) (a b : scalar)
  : list (gmap string value) :=
  filter (λ r, cell s r = Scalar a ∧ cell c r = Scalar b) (rows df).

Definition num_of (x : value) : Qc :=
  match x with
  | Scalar (SNum q) => q
  | _ => 0
  end.

Definition target_sum (t : string) (rs : list (gmap string value)) : Qc :=
  foldr (λ r acc, acc + num_of (cell t r)) 0 rs.

Definition cell_mean (df : DataFrame) (s c t : string) (a b : scalar) : Qc :=
  target_sum t (cell_rows df s c a b)
  / Qc_of_nat (length (cell_rows df s c a b)).

(** Every cell of column [t] is a number. *)
Definition is_num (x : value) : Prop := ∃ q, x = Scalar (SNum q).

Definition numeric_column (df : DataFrame) (t : string) : Prop :=
  Forall (λ r, is_num (cell t r)) (rows df).

Global Instance is_num_dec x : Decision (is_num x).
Proof.
  refine (match x with
          | Scalar (SNum q) => left _
          | _ => right _
          end); try (by intros [q' ?]). by exists q.
Defined.

Global Instance numeric_column_dec df t : Decision (numeric_column df t).
Proof. unfold numeric_column. apply _. Defined.

(** The column names that a printed text reports on, in order. *)
Definition reported (out : list Fair.line) : list string :=
  omap (λ ln, match ln with
              | Fair.AnalysisFor c => Some c
              | Fair.NotFound c => Some c
              | _ => None
              end) out.

(** What the loop of [analyze_fairness] prints for one column. *)
Definition report (df : DataFrame) (t : string) (v : scalar) (c : string)
  : list Fair.line :=
  if decide (c ∈ columns df) then
    match Fair.statistical_parity_check df c t v with
    | Ok (d, f) => [Fair.AnalysisFor c; Fair.Disparities d; Fair.IsFair f]
    | Raise _ => [Fair.AnalysisFor c]
    end
  else [Fair.NotFound c].

(** Running one piece of a loop after another: the second piece runs only
    if the first one did not raise. *)
Definition then_run (a b : list Fair.line * result ())
  : list Fair.line * result () :=
  match a with
  | (out, Ok _) => (out ++ b.1, b.2)
  | (out, Raise e) => (out, Raise e)
  end.

(** Whether a Series indexed by pairs has an entry with a given first
    (second) key. *)
Global Instance exists_is_Some_fst_dec
    (ser : gmap (scalar * scalar) (option Qc)) a :
  Decision (∃ b, is_Some (ser !! (a, b))).
Proof.
  destruct (decide (a ∈ (set_map fst (dom ser) : gset scalar)))
    as [Hin|Hno]; [left|right].
  - apply elem_of_map in Hin as ([a' b] & -> & Hdom).
    exists b. by apply elem_of_dom.
  - intros [b Hb]. apply Hno, elem_of_map. exists (a, b).
    split; [done|]. by apply elem_of_dom.
Defined.

Global Instance exists_is_Some_snd_dec
    (ser : gmap (scalar * scalar) (option Qc)) b :
  Decision (∃ a, is_Some (ser !! (a, b))).
Proof.
  destruct (decide (b ∈ (set_map snd (dom ser) : gset scalar)))
    as [Hin|Hno]; [left|right].
  - apply elem_of_map in Hin as ([a b'] & -> & Hdom).
    exists a. by apply elem_of_dom.
  - intros [a Ha]. apply Hno, elem_of_map. exists (a, b).
    split; [done|]. by apply elem_of_dom.
Defined.

(** A target cell that equals [v] once the column is normalised: a
    non-empty list whose first element is [v]. *)
Definition head_hits (x : value) (v : scalar) : bool :=
  match x with
  | VList (a :: _) => py_eq (Scalar a) v
  | _ => false
  end.

(** The lines of fair.py among the events of fair2.py and faircompas.py. *)
Definition printed_lines (out : list event) : list Fair.line :=
  omap (λ e, match e with
             | Printed l => Some l
             | _ => None
             end) out.

(** ** Example tables *)

Definition mkrow (l : list (string * value)) : gmap string value :=
  list_to_map l.

Definition scenarioB : DataFrame :=
  mkDataFrame ["group"; "y"]
    [ mkrow [("group", Str "A"); ("y", Num 1)];
      mkrow [("group", Str "A"); ("y", Num 1)];
      mkrow [("group", Str "B"); ("y", Num 0)];
      mkrow [("group", Null); ("y", Num 1)];
      mkrow [("group", Str "B"); ("y", Num 1)] ].

(** Groups "A" and "B" with the given numbers of rows of target 1 and 0. *)
Definition table_AB (a1 a0 b1 b0 : nat) : DataFrame :=
  mkDataFrame ["group"; "y"]
    (replicate a1 (mkrow [("group", Str "A"); ("y", Num 1)])
     ++ replicate a0 (mkrow [("group", Str "A"); ("y", Num 0)])
     ++ replicate b1 (mkrow [("group", Str "B"); ("y", Num 1)])
     ++ replicate b0 (mkrow [("group", Str "B"); ("y", Num 0)])).

(** The proportions of "A" and "B" and the verdict, for display. *)
Definition summary_AB (r : result (gmap scalar Qc * bool))
  : option Q * option Q * bool :=
  match r with
  | Ok (m, f) => (this <$> m !! SStr "A", this <$> m !! SStr "B", f)
  | Raise _ => (None, None, false)
  end.

(** A table without rows, and one whose sensitive column is all missing. *)
Definition no_rows : DataFrame := mkDataFrame ["group"; "y"] [].

Definition all_null : DataFrame :=
  mkDataFrame ["group"; "y"]
    [ mkrow [("group", Null); ("y", Num 1)];
      mkrow [("y", Num 0)] ].


(** A list cell in the sensitive column. *)
Definition list_group : DataFrame :=
  mkDataFrame ["group"; "y"]
    [ mkrow [("group", Str "A"); ("y", Num 1)];
      mkrow [("group", VList [SStr "A"]); ("y", Num 0)] ].

(** A missing sensitive cell beside a complete group. *)
Definition null_group : DataFrame :=
  mkDataFrame ["group"; "y"; "p"]
    [ mkrow [("group", Str "A"); ("y", Num 1); ("p", Num 1)];
      mkrow [("group", Str "A"); ("y", Num 0); ("p", Num 0)];
      mkrow [("group", Null); ("y", Num 1); ("p", Num 1)] ].

(** Predictions equal to the targets. *)
Definition perfect : DataFrame :=
  mkDataFrame ["group"; "y"; "p"]
    [ mkrow [("group", Str "A"); ("y", Num 1); ("p", Num 1)];
      mkrow [("group", Str "A"); ("y", Num 0); ("p", Num 0)];
      mkrow [("group", Str "B"); ("y", Num 0); ("p", Num 0)];
      mkrow [("group", Str "B"); ("y", Num 1); ("p", Num 1)];
      mkrow [("group", Str "B"); ("y", Num 2); ("p", Num 2)] ].

(** A string among the targets of a grouped row. *)
Definition text_target : DataFrame :=
  mkDataFrame ["group"; "y"; "c"]
    [ mkrow [("group", Str "A"); ("y", Num 1); ("c", Str "u")];
      mkrow [("group", Str "A"); ("y", Str "yes"); ("c", Str "v")] ].

(** A table of the fairlex kind: list-valued "labels". *)
Definition labels_lists : DataFrame :=
  mkDataFrame ["group"; "labels"]
    [ mkrow [("group", Str "A"); ("labels", VList [one])];
      mkrow [("group", Str "B"); ("labels", VList [])] ].

(** Scenario D: the target cells [[1]], [[]] and [1]. *)
Definition scenarioD : DataFrame :=
  mkDataFrame ["group"; "y"]
    [ mkrow [("group", Str "A"); ("y", VList [one])];
      mkrow [("group", Str "A"); ("y", VList [])];
      mkrow [("group", Str "B"); ("y", Num 1)] ].

(** Scenario E: group "A" has no row with target 1. *)
Definition scenarioE : DataFrame :=
  mkDataFrame ["group"; "y"; "p"]
    [ mkrow [("group", Str "A"); ("y", Num 0); ("p", Num 1)];
      mkrow [("group", Str "A"); ("y", Num 0); ("p", Num 0)];
      mkrow [("group", Str "B"); ("y", Num 1); ("p", Num 1)];
      mkrow [("group", Str "B"); ("y", Num 0); ("p", Num 0)] ].

Definition tbl2 : DataFrame :=
  mkDataFrame ["group"; "y"; "p"; "c"]
    [ mkrow [("group", Str "A"); ("y", Num 1); ("p", Num 2); ("c", Str "u")];
      mkrow [("group", Str "A"); ("y", Num 0); ("p", Num 0); ("c", Str "u")];
      mkrow [("group", Str "B"); ("y", Num 0); ("p", Num 1); ("c", Str "v")];
      mkrow [("group", Str "B"); ("y", Num 1); ("p", Num 1); ("c", Str "v")] ].

(** * Properties of the pandas model *)

Section pandas_facts.

Lemma select_fmap {A : Type} (f : A → bool) (l : list A) :
  select l (f <$> l) = filter (λ x, f x) l.
Proof.
  induction l as [|x l IH]; [done|].
  cbn [fmap list_fmap select]. rewrite IH, filter_cons.
  destruct (f x); by rewrite ?decide_True, ?decide_False by (simpl; auto).
Qed.

Lemma select_zip_and {A : Type} (f g : A → bool) (l : list A) :
  select l (mask_and (f <$> l) (g <$> l)) = filter (λ x, f x && g x) l.
Proof.
  rewrite <-(select_fmap (λ x, f x && g x)). f_equal. unfold mask_and.
  induction l as [|x l IH]; [done|]. cbn. by f_equal.
Qed.

Lemma getitem_ok df c :
  c ∈ columns df → getitem df c = Ok (cell c <$> rows df).
Proof. intros Hc. unfold getitem. by rewrite decide_True. Qed.

Lemma getitem_inv df c col :
  getitem df c = Ok col → c ∈ columns df ∧ col = cell c <$> rows df.
Proof. unfold getitem. case_decide; naive_solver. Qed.

Lemma getitem_absent df c : c ∉ columns df → getitem df c = Raise KeyError.
Proof. intros Hc. unfold getitem. by rewrite decide_False. Qed.

Lemma hashables_ok col :
  Forall is_scalar col → hashables col = Ok (key_of <$> col).
Proof.
  induction 1 as [|x col [k ->] _ IH]; [done|].
  simpl. rewrite IH. done.
Qed.

Lemma hashables_inv col ks :
  hashables col = Ok ks → Forall is_scalar col ∧ ks = key_of <$> col.
Proof.
  revert ks. induction col as [|x col IH]; intros ks; simpl.
  - intros [= <-]. by split.
  - destruct x as [k|l]; simpl; [|done].
    destruct (hashables col) as [ks'|e]; simpl; [|done].
    intros [= <-]. destruct (IH ks' eq_refl) as [? ->].
    split; [constructor; [by exists k|done]|done].
Qed.

Lemma hashables_raise col e : hashables col = Raise e → e = TypeError.
Proof.
  induction col as [|x col IH]; simpl; [done|].
  destruct x as [k|l]; simpl; [|congruence].
  destruct (hashables col); simpl; [done|]. intros [= <-]. by apply IH.
Qed.

Lemma count_key_insert x (m : gmap scalar nat) :
  x ≠ SNull → count_key x m = <[x := S (default 0%nat (m !! x))]> m.
Proof. by destruct x. Qed.

Lemma occ_cons x k ks :
  occ k (x :: ks) = if decide (x = k) then S (occ k ks) else occ k ks.
Proof. unfold occ. rewrite filter_cons. by case_decide. Qed.

Lemma size_by_lookup ks k :
  size_by ks !! k =
    if decide (k ≠ SNull ∧ 0 < occ k ks)%nat then Some (occ k ks) else None.
Proof.
  induction ks as [|x ks IH]; simpl.
  - rewrite lookup_empty. by rewrite decide_False by (unfold occ; simpl; lia).
  - rewrite occ_cons.
    destruct (decide (x = SNull)) as [->|Hx].
    + simpl. rewrite IH. destruct (decide (SNull = k)) as [<-|?]; [|done].
      by rewrite !decide_False by (by intros [? _]).
    + rewrite count_key_insert by done.
      destruct (decide (x = k)) as [->|Hne].
      * rewrite lookup_insert_eq, IH.
        rewrite (decide_True (P := k ≠ SNull ∧ (0 < S (occ k ks))%nat))
          by (split; [done|lia]).
        case_decide as Hk; simpl; [done|].
        do 2 f_equal. destruct (occ k ks); [done|].
        destruct Hk. split; [done|lia].
      * by rewrite lookup_insert_ne, IH.
Qed.

Lemma size_by_pos ks k n : size_by ks !! k = Some n → (0 < n)%nat.
Proof.
  rewrite size_by_lookup.
  destruct (decide _) as [[_ Hpos]|_]; [|done]. by intros [= <-].
Qed.

End pandas_facts.

(** * Statistical parity *)

Section statistical_parity.

Implicit Types (df : DataFrame) (s t : string) (v g : scalar).

Lemma occ_keys g s (l : list (gmap string value)) :
  g ≠ SNull →
  occ g (key_of <$> (cell s <$> l))
  = length (filter (λ r, cell s r = Scalar g) l).
Proof.
  intros Hg. induction l as [|r l IH]; [done|].
  rewrite !fmap_cons, occ_cons, filter_cons, IH.
  destruct (cell s r) as [k|ks]; simpl;
    repeat case_decide; simplify_eq; done.
Qed.

Lemma group_hits_le df s t v g : (group_hits df s t v g ≤ group_size df s g)%nat.
Proof.
  unfold group_hits, group_size.
  induction (rows df) as [|r l IH]; [done|].
  rewrite !filter_cons.
  destruct (decide (cell s r = Scalar g ∧ _)) as [[Hg _]|_];
    destruct (decide (cell s r = Scalar g)); simpl; try lia; done.
Qed.

Lemma group_size_pos df s g : occurs df s g ↔ (0 < group_size df s g)%nat.
Proof.
  unfold occurs, group_size. split.
  - intros (r & Hr & Hg).
    assert (r ∈ filter (λ r, cell s r = Scalar g) (rows df)) as Hin
      by (by apply list_elem_of_filter).
    destruct (filter _ (rows df)); [by apply elem_of_nil in Hin|simpl; lia].
  - intros Hlen.
    destruct (filter _ (rows df)) as [|r l] eqn:Hf; [simpl in Hlen; lia|].
    assert (r ∈ filter (λ r, cell s r = Scalar g) (rows df)) as Hin
      by (rewrite Hf; left).
    apply list_elem_of_filter in Hin as [? ?]. by exists r.
Qed.

Lemma scalar_column_filter df s (P : gmap string value → Prop)
    `{!∀ r, Decision (P r)} :
  scalar_column df s → Forall (λ r, is_scalar (cell s r)) (filter P (rows df)).
Proof.
  unfold scalar_column. rewrite !Forall_forall.
  intros Hall r Hr. apply list_elem_of_filter in Hr as [_ Hr]. by apply Hall.
Qed.

Lemma groupby_size_ok df s :
  s ∈ columns df → scalar_column df s →
  groupby_size df s = Ok (size_by (key_of <$> (cell s <$> rows df))).
Proof.
  intros Hs Hsc. unfold groupby_size. rewrite getitem_ok by done. simpl.
  by rewrite hashables_ok by (apply Forall_fmap; exact Hsc).
Qed.

Lemma groupby_size_inv df s m :
  groupby_size df s = Ok m →
  s ∈ columns df ∧ scalar_column df s
  ∧ m = size_by (key_of <$> (cell s <$> rows df)).
Proof.
  unfold groupby_size. destruct (getitem df s) as [col|e] eqn:Hcol; [|done].
  apply getitem_inv in Hcol as [Hs ->]. simpl.
  destruct (hashables _) as [ks|e] eqn:Hks; [|done]. simpl.
  apply hashables_inv in Hks as [Hsc ->]. intros [= <-].
  split; [done|]. split; [|done].
  unfold scalar_column. apply Forall_forall. intros r Hr.
  eapply Forall_forall; [exact Hsc|]. by apply list_elem_of_fmap_2.
Qed.

Lemma proportions_ok df s t v :
  s ∈ columns df → t ∈ columns df → scalar_column df s →
  proportions df s t v = Ok (proportion_series df s t v).
Proof.
  intros Hs Ht Hsc. unfold proportions. rewrite getitem_ok by done. simpl.
  unfold eq_mask. rewrite <-list_fmap_compose.
  rewrite (groupby_size_ok (getitem_mask _ _)); simpl; [|done|].
  - rewrite groupby_size_ok by done. simpl.
    unfold proportion_series. by rewrite select_fmap.
  - unfold scalar_column. simpl. rewrite select_fmap.
    by apply scalar_column_filter.
Qed.

Lemma proportions_inv df s t v m :
  proportions df s t v = Ok m →
  s ∈ columns df ∧ t ∈ columns df ∧ scalar_column df s
  ∧ m = proportion_series df s t v.
Proof.
  intros H.
  assert (s ∈ columns df ∧ t ∈ columns df ∧ scalar_column df s)
    as (Hs & Ht & Hsc).
  { unfold proportions in H.
    destruct (getitem df t) as [col|e] eqn:Hcol; [|done].
    apply getitem_inv in Hcol as [Ht _]. simpl in H.
    destruct (groupby_size (getitem_mask _ _) s) as [num|e]; [|done].
    simpl in H.
    destruct (groupby_size df s) as [den|e] eqn:Hden; [|done].
    by apply groupby_size_inv in Hden as (Hs & Hsc & _). }
  rewrite proportions_ok in H by done. by injection H as <-.
Qed.

Lemma Qc_of_nat_0 : Qc_of_nat 0 = 0.
Proof. exact Z2Qc_inj_0. Qed.

Lemma Qc_of_nat_nonneg n : 0 ≤ Qc_of_nat n.
Proof.
  rewrite <-Z2Qc_inj_0. unfold Qc_of_nat. apply (proj1 (Z2Qc_inj_le _ _)). lia.
Qed.

Lemma Qc_of_nat_pos n : (0 < n)%nat → 0 < Qc_of_nat n.
Proof.
  intros Hn. rewrite <-Z2Qc_inj_0. unfold Qc_of_nat.
  apply (proj1 (Z2Qc_inj_lt _ _)). lia.
Qed.

Lemma Qc_of_nat_le n m : (n ≤ m)%nat → Qc_of_nat n ≤ Qc_of_nat m.
Proof. intros Hn. unfold Qc_of_nat. apply (proj1 (Z2Qc_inj_le _ _)). lia. Qed.

(** A ratio of two counts, the first at most the second, is in [0,1]. *)
Lemma ratio_bounds n d :
  (n ≤ d)%nat → (0 < d)%nat → 0 ≤ Qc_of_nat n / Qc_of_nat d ≤ 1.
Proof.
  intros Hle Hd. pose proof (Qc_of_nat_pos d Hd) as Hpos.
  pose proof (Qcinv_pos _ Hpos) as Hinv. unfold Qcdiv. split.
  - apply Qcmult_nonneg_nonneg; [apply Qc_of_nat_nonneg|].
    by apply Qclt_le_weak.
  - rewrite <-(Qcmult_inv_r (Qc_of_nat d)) by (by apply Qclt_not_eq in Hpos).
    apply Qcmult_le_mono_nonneg_r; [by apply Qclt_le_weak|].
    by apply Qc_of_nat_le.
Qed.

Lemma proportion_series_lookup df s t v g :
  proportion_series df s t v !! g =
    if decide (g ≠ SNull ∧ 0 < group_size df s g)%nat
    then Some (Qc_of_nat (group_hits df s t v g)
               / Qc_of_nat (group_size df s g))
    else None.
Proof.
  unfold proportion_series, fillna, series_truediv.
  rewrite lookup_fmap, lookup_merge, !size_by_lookup.
  destruct (decide (g = SNull)) as [->|Hg].
  { by rewrite !decide_False by (by intros [? _]). }
  rewrite !occ_keys by done. rewrite list_filter_filter.
  fold (group_size df s g). fold (group_hits df s t v g).
  pose proof (group_hits_le df s t v g) as Hle.
  repeat case_decide; simpl; try done; try (exfalso; intuition lia).
  assert (group_hits df s t v g = 0%nat) as -> by (destruct (group_hits df s t v g); [done|exfalso; intuition lia]).
  unfold Qcdiv. by rewrite Qc_of_nat_0, Qcmult_0_l.
Qed.

End statistical_parity.

(** ** The spread of a proportion map *)

Section disparity.

Lemma foldl_max_spec (l : list Qc) (a : Qc) :
  let r := foldl (λ acc y, if decide (acc < y) then y else acc) a l in
  (r = a ∨ r ∈ l) ∧ a ≤ r ∧ ∀ y, y ∈ l → y ≤ r.
Proof.
  revert a. induction l as [|x l IH]; intros a; simpl.
  - split; [by left|]. split; [done|]. intros y Hy. by apply elem_of_nil in Hy.
  - destruct (IH (if decide (a < x) then x else a)) as (Hin & Hle & Hub).
    split; [|split].
    + destruct Hin as [->|Hin]; [|right; by right].
      case_decide; [right; left|by left].
    + etrans; [|exact Hle]. case_decide; [by apply Qclt_le_weak|done].
    + intros y [->|Hy]%elem_of_cons; [|by apply Hub].
      etrans; [|exact Hle]. case_decide; [done|by apply Qcnot_lt_le].
Qed.

Lemma foldl_min_spec (l : list Qc) (a : Qc) :
  let r := foldl (λ acc y, if decide (y < acc) then y else acc) a l in
  (r = a ∨ r ∈ l) ∧ r ≤ a ∧ ∀ y, y ∈ l → r ≤ y.
Proof.
  revert a. induction l as [|x l IH]; intros a; simpl.
  - split; [by left|]. split; [done|]. intros y Hy. by apply elem_of_nil in Hy.
  - destruct (IH (if decide (x < a) then x else a)) as (Hin & Hle & Hlb).
    split; [|split].
    + destruct Hin as [->|Hin]; [|right; by right].
      case_decide; [right; left|by left].
    + etrans; [exact Hle|]. case_decide; [by apply Qclt_le_weak|done].
    + intros y [->|Hy]%elem_of_cons; [|by apply Hlb].
      etrans; [exact Hle|]. case_decide; [done|by apply Qcnot_lt_le].
Qed.

Lemma py_max_spec l x :
  py_max l = Ok x → x ∈ l ∧ ∀ y, y ∈ l → y ≤ x.
Proof.
  destruct l as [|a l]; simpl; [done|]. intros [= <-].
  destruct (foldl_max_spec l a) as (Hin & Hle & Hub). split.
  - destruct Hin as [->|Hin]; [left|by right].
  - intros y [->|Hy]%elem_of_cons; [done|by apply Hub].
Qed.

Lemma py_min_spec l x :
  py_min l = Ok x → x ∈ l ∧ ∀ y, y ∈ l → x ≤ y.
Proof.
  destruct l as [|a l]; simpl; [done|]. intros [= <-].
  destruct (foldl_min_spec l a) as (Hin & Hle & Hlb). split.
  - destruct Hin as [->|Hin]; [left|by right].
  - intros y [->|Hy]%elem_of_cons; [done|by apply Hlb].
Qed.

Lemma elem_of_values {A : Type} (d : gmap scalar A) (x : A) :
  x ∈ values d ↔ ∃ k, d !! k = Some x.
Proof.
  unfold values. rewrite list_elem_of_fmap. split.
  - intros ([k y] & -> & Hin). exists k. by apply elem_of_map_to_list.
  - intros (k & Hk). exists (k, x). split; [done|].
    by apply elem_of_map_to_list.
Qed.

Lemma values_nil {A : Type} (d : gmap scalar A) : values d = [] ↔ d = ∅.
Proof.
  unfold values. rewrite <-map_to_list_empty_iff.
  split; [apply fmap_nil_inv|by intros ->].
Qed.

Lemma max_disparity_ok m d :
  max_disparity m = Ok d → ∃ hi lo, extremes m hi lo ∧ d = hi - lo.
Proof.
  unfold max_disparity.
  destruct (py_max (values m)) as [hi|e] eqn:Hhi; [|done]. simpl.
  destruct (py_min (values m)) as [lo|e] eqn:Hlo; [|done]. simpl.
  intros [= <-]. exists hi, lo. split; [|done].
  apply py_max_spec in Hhi as [Hhi Hub]. apply py_min_spec in Hlo as [Hlo Hlb].
  split; [by apply elem_of_values|]. split; [by apply elem_of_values|].
  intros g p Hg. split; [apply Hlb|apply Hub]; apply elem_of_values; eauto.
Qed.

Lemma max_disparity_raise m e :
  max_disparity m = Raise e ↔ m = ∅ ∧ e = ValueError.
Proof.
  unfold max_disparity. rewrite <-values_nil.
  destruct (values m) as [|x l]; simpl;
    [split; [by intros [= <-]|by intros [_ ->]]|].
  split; [done|]. by intros [? _].
Qed.


End disparity.

(** * The statistical parity evaluator *)

Section evaluator.

Implicit Types (df : DataFrame) (s t : string) (v g : scalar).

Lemma fair_check_inv df s t v m fair :
  Fair.statistical_parity_check df s t v = Ok (m, fair) →
  proportions df s t v = Ok m
  ∧ ∃ d, max_disparity m = Ok d ∧ fair = bool_decide (d ≤ threshold).
Proof.
  unfold Fair.statistical_parity_check.
  destruct (proportions df s t v) as [m'|e]; [|done]. simpl.
  destruct (max_disparity m') as [d|e] eqn:Hd; [|done]. simpl.
  intros [= <- <-]. eauto.
Qed.

Lemma compas_check_inv df s t v m fair :
  FairCompas.statistical_parity_check df s t v = Ok (m, fair) →
  proportions df s t v = Ok m.
Proof.
  unfold FairCompas.statistical_parity_check.
  destruct (proportions df s t v) as [m'|e]; [|done]. simpl.
  case_decide as Hm; [by intros [= <- <-]; subst|].
  destruct (max_disparity m') as [d|e]; [|done]. simpl. by intros [= <- <-].
Qed.

Lemma fair_check_ok df s t v g :
  s ∈ columns df → t ∈ columns df → scalar_column df s →
  g ≠ SNull → occurs df s g →
  ∃ fair, Fair.statistical_parity_check df s t v
          = Ok (proportion_series df s t v, fair).
Proof.
  intros Hs Ht Hsc Hg Hocc. unfold Fair.statistical_parity_check.
  rewrite proportions_ok by done. simpl.
  destruct (max_disparity _) as [d|e] eqn:Hd; simpl; [eauto|].
  apply max_disparity_raise in Hd as [Hempty _].
  apply (f_equal (λ m : gmap scalar Qc, m !! g)) in Hempty.
  rewrite proportion_series_lookup, lookup_empty in Hempty.
  rewrite decide_True in Hempty; [done|]. split; [done|].
  by apply group_size_pos.
Qed.

Lemma filter_length_dropna s (P : gmap string value → Prop)
    `{!∀ r, Decision (P r)} (l : list (gmap string value)) :
  (∀ r, P r → cell s r ≠ Null) →
  length (filter P (filter (λ r, cell s r ≠ Null) l)) = length (filter P l).
Proof.
  intros HP. induction l as [|r l IH]; [done|].
  rewrite !filter_cons. destruct (decide (P r)) as [Hr|Hr].
  - rewrite decide_True by auto. rewrite filter_cons, decide_True by done.
    simpl. by rewrite IH.
  - case_decide; [|done]. by rewrite filter_cons, decide_False.
Qed.

Lemma proportion_series_dropna df s t v :
  proportion_series (dropna df s) s t v = proportion_series df s t v.
Proof.
  apply map_eq. intros g. rewrite !proportion_series_lookup.
  destruct (decide (g = SNull)) as [->|Hg].
  { by rewrite !decide_False by (by intros [? _]). }
  assert (group_size (dropna df s) s g = group_size df s g) as ->.
  { unfold group_size. simpl. apply filter_length_dropna.
    intros r -> [= ->]. done. }
  assert (group_hits (dropna df s) s t v g = group_hits df s t v g) as ->; [|done].
  unfold group_hits. simpl. apply filter_length_dropna.
  intros r [-> _] [= ->]. done.
Qed.

End evaluator.

(** * Properties of the statistical parity evaluator *)

(** Closes a decidable side condition on a concrete table by evaluation. *)
Ltac by_eval := apply (bool_decide_unpack _); vm_compute; exact I.

Section parity_properties.

Implicit Types (df : DataFrame) (s t : string) (v g : scalar).

(** Scenarios A and B of the specification. *)
Example scenario_A :
  summary_AB (Fair.statistical_parity_check (table_AB 5 5 5 5)
                "group" "y" one)
  = (Some (1 # 2)%Q, Some (1 # 2)%Q, true).
Proof. vm_compute. reflexivity. Qed.

Example scenario_B :
  summary_AB (Fair.statistical_parity_check (table_AB 9 1 1 9)
                "group" "y" one)
  = (Some (9 # 10)%Q, Some (1 # 10)%Q, false).
Proof. vm_compute. reflexivity. Qed.

(** The target value is compared without a cast: the string "1" matches
    no numeric label. *)
Example string_target_value :
  summary_AB (Fair.statistical_parity_check (table_AB 9 1 1 9)
                "group" "y" (SStr "1"))
  = (Some 0%Q, Some 0%Q, true).
Proof. vm_compute. reflexivity. Qed.

(** C1: on a table that has both columns, for every value [g] of the
    sensitive column the evaluator returns a map that gives [g] the number
    of rows of group [g] whose target equals [target_value], divided by the
    number of all rows of group [g]; a group without any such row is in
    the map with proportion 0. *)
Theorem statistical_parity_check_proportion df s t v g :
  s ∈ columns df → t ∈ columns df → scalar_column df s →
  g ≠ SNull → occurs df s g →
  ∃ m fair,
    Fair.statistical_parity_check df s t v = Ok (m, fair)
    ∧ m !! g = Some (Qc_of_nat (group_hits df s t v g)
                     / Qc_of_nat (group_size df s g))
    ∧ (group_hits df s t v g = 0%nat → m !! g = Some 0).
Proof.
  intros Hs Ht Hsc Hg Hocc.
  destruct (fair_check_ok df s t v g) as [fair Hfair]; try done.
  exists (proportion_series df s t v), fair. split; [done|].
  assert (proportion_series df s t v !! g
          = Some (Qc_of_nat (group_hits df s t v g)
                  / Qc_of_nat (group_size df s g))) as Hlook.
  { rewrite proportion_series_lookup, decide_True; [done|].
    split; [done|]. by apply group_size_pos. }
  split; [done|]. intros Hzero. rewrite Hlook, Hzero.
  unfold Qcdiv. by rewrite Qc_of_nat_0, Qcmult_0_l.
Qed.

Lemma statistical_parity_check_proportion_witness :
  ∃ m fair,
    Fair.statistical_parity_check scenarioB "group" "y" one = Ok (m, fair)
    ∧ m !! SStr "B"
      = Some (Qc_of_nat (group_hits scenarioB "group" "y" one (SStr "B"))
              / Qc_of_nat (group_size scenarioB "group" (SStr "B")))
    ∧ (group_hits scenarioB "group" "y" one (SStr "B") = 0%nat
       → m !! SStr "B" = Some 0).
Proof.
  apply (statistical_parity_check_proportion scenarioB "group" "y" one
           (SStr "B")); [by_eval|by_eval|by_eval|done|].
  apply group_size_pos. vm_compute. lia.
Defined.

(** C9: every proportion of the returned map is in [0,1]. *)
Theorem statistical_parity_check_bounds df s t v m fair g p :
  Fair.statistical_parity_check df s t v = Ok (m, fair) →
  m !! g = Some p → 0 ≤ p ≤ 1.
Proof.
  intros [Hm _]%fair_check_inv.
  apply proportions_inv in Hm as (_ & _ & _ & ->).
  rewrite proportion_series_lookup.
  destruct (decide _) as [[_ Hpos]|_]; [|done]. intros [= <-].
  apply ratio_bounds; [apply group_hits_le|done].
Qed.

Lemma statistical_parity_check_bounds_witness :
  0 ≤ Qc_of_nat 1 / Qc_of_nat 2 ≤ 1.
Proof.
  apply (statistical_parity_check_bounds scenarioB "group" "y" one
           (proportion_series scenarioB "group" "y" one) false (SStr "B"));
    vm_compute; reflexivity.
Defined.

(** C10: the keys of the returned map are exactly the non-missing values
    of the sensitive column; the missing value is never a key, and the rows
    with a missing sensitive cell do not count: without them the result is
    the same.  It holds for the evaluator of fair.py and for the one of
    faircompas.py. *)
Theorem statistical_parity_check_keys df s t v m fair :
  Fair.statistical_parity_check df s t v = Ok (m, fair)
  ∨ FairCompas.statistical_parity_check df s t v = Ok (m, fair) →
  (∀ k, k ∈ dom m ↔ k ≠ SNull ∧ occurs df s k)
  ∧ (SNull ∉ dom m)
  ∧ (∀ k p, m !! k = Some p →
       p = (Qc_of_nat (group_hits df s t v k)
            / Qc_of_nat (group_size df s k)))
  ∧ Fair.statistical_parity_check (dropna df s) s t v
    = Fair.statistical_parity_check df s t v
  ∧ FairCompas.statistical_parity_check (dropna df s) s t v
    = FairCompas.statistical_parity_check df s t v.
Proof.
  intros Hret.
  assert (proportions df s t v = Ok m) as Hm.
  { destruct Hret as [H|H]; [by apply fair_check_inv in H as [? _]|].
    by apply compas_check_inv in H. }
  clear Hret. apply proportions_inv in Hm as (Hs & Ht & Hsc & ->).
  assert (∀ k, k ∈ dom (proportion_series df s t v)
               ↔ k ≠ SNull ∧ occurs df s k) as Hdom.
  { intros k. rewrite elem_of_dom, proportion_series_lookup, group_size_pos.
    destruct (decide _) as [Hk|Hk]; [|split; [by intros [? ?]|done]].
    split; [done|by eexists]. }
  split; [done|]. split; [by intros [? _]%Hdom|]. split.
  { intros k p. rewrite proportion_series_lookup.
    destruct (decide _); [by intros [= <-]|done]. }
  assert (proportions (dropna df s) s t v = proportions df s t v) as Hdrop.
  { rewrite !proportions_ok, ?proportion_series_dropna; try done.
    unfold scalar_column, dropna. simpl. by apply scalar_column_filter. }
  unfold Fair.statistical_parity_check, FairCompas.statistical_parity_check.
  by rewrite Hdrop.
Qed.

Lemma statistical_parity_check_keys_witness :
  let m := proportion_series scenarioB "group" "y" one in
  (∀ k, k ∈ dom m ↔ k ≠ SNull ∧ occurs scenarioB "group" k)
  ∧ SNull ∉ dom m.
Proof.
  destruct (statistical_parity_check_keys scenarioB "group" "y" one
              (proportion_series scenarioB "group" "y" one) false)
    as (Hdom & Hnull & _); [left; vm_compute; reflexivity|].
  split; assumption.
Defined.



(** C3: when the sensitive column has no value at all (no rows, or only
    missing cells) the evaluator of fair.py and fair2.py raises
    [ValueError] from [max()] on the empty dict; the evaluator of
    faircompas.py returns the empty map and the verdict [True]. *)
Theorem statistical_parity_check_no_groups df s t v :
  s ∈ columns df → t ∈ columns df →
  Forall (λ r, cell s r = Null) (rows df) →
  Fair.statistical_parity_check df s t v = Raise ValueError
  ∧ FairCompas.statistical_parity_check df s t v = Ok (∅, true).
Proof.
  intros Hs Ht Hnull.
  assert (scalar_column df s) as Hsc.
  { unfold scalar_column. eapply Forall_impl; [exact Hnull|].
    intros r ->. by exists SNull. }
  assert (proportion_series df s t v = ∅) as Hempty.
  { apply map_eq. intros g.
    rewrite proportion_series_lookup, lookup_empty.
    destruct (decide _) as [[Hg Hpos]|_]; [|done].
    apply group_size_pos in Hpos as (r & Hr & Hcell).
    rewrite Forall_forall in Hnull. rewrite (Hnull r Hr) in Hcell.
    by injection Hcell as <-. }
  unfold Fair.statistical_parity_check, FairCompas.statistical_parity_check.
  rewrite proportions_ok, Hempty by done. simpl. split; [done|].
  by rewrite decide_True.
Qed.

Lemma statistical_parity_check_no_groups_witness :
  (Fair.statistical_parity_check no_rows "group" "y" one = Raise ValueError
   ∧ FairCompas.statistical_parity_check no_rows "group" "y" one
     = Ok (∅, true))
  ∧ (Fair.statistical_parity_check all_null "group" "y" one
     = Raise ValueError
     ∧ FairCompas.statistical_parity_check all_null "group" "y" one
       = Ok (∅, true)).
Proof.
  split.
  - apply (statistical_parity_check_no_groups no_rows "group" "y" one);
      [by_eval|by_eval|constructor].
  - apply (statistical_parity_check_no_groups all_null "group" "y" one);
      [by_eval|by_eval|].
    repeat constructor.
Defined.

End parity_properties.

(** * The target normalizer *)

Section normalizer.

Lemma cell_setitem_rows c tc (g : value → value)
    (l : list (gmap string value)) :
  cell c <$> zip_with (λ r x, <[tc := x]> r) l (g <$> (cell tc <$> l))
  = if decide (c = tc) then g <$> (cell tc <$> l) else cell c <$> l.
Proof.
  induction l as [|r l IH]; [by case_decide|].
  rewrite !fmap_cons. cbn [zip_with]. rewrite fmap_cons, IH.
  unfold cell at 1. destruct (decide (c = tc)) as [->|Hne].
  - by rewrite lookup_insert_eq.
  - by rewrite lookup_insert_ne.
Qed.

Lemma existsb_isinstance_false (col : list value) :
  existsb Fair.isinstance_list col = false ↔ Forall is_scalar col.
Proof.
  induction col as [|x col IH]; simpl; [by split|].
  rewrite orb_false_iff, IH, Forall_cons.
  destruct x; simpl; split; intros [H1 H2]; split; try done.
  - by eexists.
  - by destruct H1.
Qed.

(** C4: what [preprocess_target_column] does to the target column.  When
    no cell is a list the table is returned as it is.  When some cell is a
    list, every cell goes through the lambda of line 38: a non-empty list
    gives its first element, an empty list gives the missing value, and
    so does every cell that is not a list; the other columns are
    unchanged. *)
Theorem preprocess_target_column_cells df tc :
  tc ∈ columns df →
  ∃ df',
    Fair.preprocess_target_column df tc = Ok df'
    ∧ columns df' = columns df
    ∧ (∀ c, c ≠ tc → cell c <$> rows df' = cell c <$> rows df)
    ∧ (Forall is_scalar (cell tc <$> rows df) → df' = df)
    ∧ (¬ Forall is_scalar (cell tc <$> rows df) →
         cell tc <$> rows df'
         = (λ x, match x with
                 | VList (a :: _) => Scalar a
                 | VList [] => Null
                 | Scalar _ => Null
                 end) <$> (cell tc <$> rows df)).
Proof.
  intros Htc. unfold Fair.preprocess_target_column.
  rewrite getitem_ok by done. simpl.
  destruct (existsb _ _) eqn:Hany.
  - eexists. split; [done|]. simpl. split; [by rewrite decide_True|].
    split; [|split].
    + intros c Hc. by rewrite cell_setitem_rows, decide_False.
    + intros Hall%existsb_isinstance_false. congruence.
    + intros _. rewrite cell_setitem_rows, decide_True by done.
      apply list_fmap_ext. intros _ x _. by destruct x as [k|[|a l]].
  - exists df. split; [done|]. split; [done|]. split; [done|].
    split; [done|]. intros []. by apply existsb_isinstance_false.
Qed.

Lemma preprocess_target_column_cells_witness :
  ∃ df',
    Fair.preprocess_target_column scenarioD "y" = Ok df'
    ∧ cell "y" <$> rows df' = [Num 1; Null; Null].
Proof.
  destruct (preprocess_target_column_cells scenarioD "y")
    as (df' & Hrun & _ & _ & _ & Hcells); [by_eval|].
  exists df'. split; [exact Hrun|]. rewrite Hcells; [reflexivity|].
  intros Hall. by apply Forall_cons in Hall as [[k [=]] _].
Defined.

End normalizer.

(** * The orchestrator *)

Section orchestrator.

Implicit Types (df : DataFrame) (t : string) (v : scalar).

Lemma analyze_fairness_cons df c cols t v :
  Fair.analyze_fairness df (c :: cols) t v
  = then_run
      (report df t v c,
       if decide (c ∈ columns df) then
         match Fair.statistical_parity_check df c t v with
         | Ok _ => Ok ()
         | Raise e => Raise e
         end
       else Ok ())
      (Fair.analyze_fairness df cols t v).
Proof.
  unfold report. simpl. case_decide.
  - destruct (Fair.statistical_parity_check df c t v) as [[d f]|e]; [|done].
    by destruct (Fair.analyze_fairness df cols t v).
  - by destruct (Fair.analyze_fairness df cols t v).
Qed.

Lemma then_run_assoc a b c :
  then_run (then_run a b) c = then_run a (then_run b c).
Proof.
  destruct a as [o1 [[]|e1]], b as [o2 [[]|e2]]; simpl; [|done..].
  by rewrite app_assoc.
Qed.

Lemma analyze_fairness_app df pre post t v :
  Fair.analyze_fairness df (pre ++ post) t v
  = then_run (Fair.analyze_fairness df pre t v)
             (Fair.analyze_fairness df post t v).
Proof.
  induction pre as [|c pre IH].
  - simpl. by destruct (Fair.analyze_fairness df post t v).
  - rewrite <-app_comm_cons, !analyze_fairness_cons, IH.
    by rewrite then_run_assoc.
Qed.

(** C6: a sensitive column that the table does not have only adds its own
    "not found" line: the columns before it and after it are analysed as
    they are without it, and the call does not end there.  When no column
    of the table makes the evaluator raise, the loop runs to its end and
    prints the reports of all the columns in the order given. *)
Theorem analyze_fairness_missing_column df pre c post t v :
  c ∉ columns df →
  Fair.analyze_fairness df (pre ++ c :: post) t v
  = then_run (Fair.analyze_fairness df pre t v)
      (then_run ([Fair.NotFound c], Ok ())
                (Fair.analyze_fairness df post t v))
  ∧ Fair.analyze_fairness df [c] t v = ([Fair.NotFound c], Ok ())
  ∧ ((∀ c', c' ∈ pre ++ post → c' ∈ columns df →
        is_ok (Fair.statistical_parity_check df c' t v)) →
     Fair.analyze_fairness df (pre ++ c :: post) t v
     = (flat_map (report df t v) (pre ++ c :: post), Ok ())
     ∧ reported (flat_map (report df t v) (pre ++ c :: post))
       = pre ++ c :: post).
Proof.
  intros Hc.
  assert (Fair.analyze_fairness df [c] t v = ([Fair.NotFound c], Ok ()))
    as Hone by (simpl; by rewrite decide_False).
  split; [|split; [done|]].
  { rewrite analyze_fairness_app. f_equal.
    change (c :: post) with ([c] ++ post).
    by rewrite analyze_fairness_app, Hone. }
  intros Hok.
  assert (∀ cols, (∀ c', c' ∈ cols → c' ∈ columns df →
              is_ok (Fair.statistical_parity_check df c' t v)) →
            Fair.analyze_fairness df cols t v
            = (flat_map (report df t v) cols, Ok ())
            ∧ reported (flat_map (report df t v) cols) = cols) as Hall.
  { clear. induction cols as [|c cols IH]; intros Hok; [done|].
    destruct IH as [IH1 IH2].
    { intros c' Hc'. apply Hok. by right. }
    rewrite analyze_fairness_cons, IH1. cbn [flat_map].
    unfold reported in *. rewrite omap_app, IH2.
    unfold report. case_decide as Hin; [|done].
    by destruct (Hok c) as [[d f] ->]; [left|done|]. }
  apply Hall. intros c' Hc' Hin. apply Hok; [|done].
  apply elem_of_app in Hc' as [?|[->|?]%elem_of_cons];
    [apply elem_of_app; by left|done|apply elem_of_app; by right].
Qed.

Lemma analyze_fairness_missing_column_witness :
  Fair.analyze_fairness scenarioB ["missing_col"; "group"] "y" one
  = (flat_map (report scenarioB "y" one) ["missing_col"; "group"], Ok ())
  ∧ reported (flat_map (report scenarioB "y" one) ["missing_col"; "group"])
    = ["missing_col"; "group"].
Proof.
  destruct (analyze_fairness_missing_column scenarioB [] "missing_col"
              ["group"] "y" one) as (_ & _ & Hall); [by_eval|].
  apply Hall. intros c' ->%list_elem_of_singleton _.
  eexists. vm_compute. reflexivity.
Defined.

End orchestrator.

(** * The performance parity evaluator *)

Section performance.

Implicit Types (df : DataFrame) (s t p : string) (g : scalar).

Lemma py_truediv_raise n d e : py_truediv n d = Raise e → e = ZeroDivisionError.
Proof. unfold py_truediv. case_decide; congruence. Qed.

Lemma group_rates_eq df s t p g :
  s ∈ columns df → t ∈ columns df → p ∈ columns df →
  Fair2.group_rates df s t p g
  = tpr ← py_truediv (true_positives df s t p g) (positives df s t g);
    fpr ← py_truediv (false_positives df s t p g) (negatives df s t g);
    Ok (Fair2.mkRates tpr fpr).
Proof.
  intros Hs Ht Hp. unfold Fair2.group_rates.
  rewrite (getitem_ok df s) by done. simpl.
  rewrite !(getitem_ok (getitem_mask _ _)) by done. simpl.
  unfold eq_mask, shape0. simpl.
  rewrite <-!list_fmap_compose, !select_fmap, !select_zip_and.
  done.
Qed.

Lemma group_rates_raise df s t p g e :
  s ∈ columns df → t ∈ columns df → p ∈ columns df →
  Fair2.group_rates df s t p g = Raise e → e = ZeroDivisionError.
Proof.
  intros Hs Ht Hp. rewrite group_rates_eq by done.
  destruct (py_truediv (true_positives _ _ _ _ _) _) eqn:H1; simpl;
    [|intros [= <-]; by eapply py_truediv_raise].
  destruct (py_truediv (false_positives _ _ _ _ _) _) eqn:H2; simpl;
    [done|intros [= <-]; by eapply py_truediv_raise].
Qed.

Lemma group_rates_ok df s t p g :
  s ∈ columns df → t ∈ columns df → p ∈ columns df →
  (0 < positives df s t g)%nat → (0 < negatives df s t g)%nat →
  Fair2.group_rates df s t p g
  = Ok (Fair2.mkRates
          (Qc_of_nat (true_positives df s t p g)
           / Qc_of_nat (positives df s t g))
          (Qc_of_nat (false_positives df s t p g)
           / Qc_of_nat (negatives df s t g))).
Proof.
  intros Hs Ht Hp Hpos Hneg. rewrite group_rates_eq by done.
  unfold py_truediv. by rewrite !decide_False by lia.
Qed.

Lemma group_rates_no_positives df s t p g :
  s ∈ columns df → t ∈ columns df → p ∈ columns df →
  positives df s t g = 0%nat →
  Fair2.group_rates df s t p g = Raise ZeroDivisionError.
Proof.
  intros Hs Ht Hp Hpos. rewrite group_rates_eq by done.
  by rewrite Hpos.
Qed.

Lemma metrics_loop_raise df s t p groups g acc :
  s ∈ columns df → t ∈ columns df → p ∈ columns df →
  g ∈ groups → positives df s t g = 0%nat →
  Fair2.metrics_loop df s t p groups acc = Raise ZeroDivisionError.
Proof.
  intros Hs Ht Hp Hin Hpos. revert acc.
  induction groups as [|g' groups IH]; intros acc;
    [by apply elem_of_nil in Hin|].
  simpl. destruct (Fair2.group_rates df s t p g') as [r|e] eqn:Hg'; simpl.
  - apply elem_of_cons in Hin as [->|Hin]; [|by apply IH].
    by rewrite group_rates_no_positives in Hg'.
  - by apply group_rates_raise in Hg' as ->.
Qed.

Lemma metrics_loop_ok df s t p groups acc :
  s ∈ columns df → t ∈ columns df → p ∈ columns df →
  (∀ g, g ∈ groups →
     (0 < positives df s t g)%nat ∧ (0 < negatives df s t g)%nat) →
  ∃ metrics,
    Fair2.metrics_loop df s t p groups acc = Ok metrics
    ∧ ∀ g, metrics !! g =
        if decide (g ∈ groups) then
          Some (Fair2.mkRates
                  (Qc_of_nat (true_positives df s t p g)
                   / Qc_of_nat (positives df s t g))
                  (Qc_of_nat (false_positives df s t p g)
                   / Qc_of_nat (negatives df s t g)))
        else acc !! g.
Proof.
  intros Hs Ht Hp. revert acc.
  induction groups as [|g' groups IH]; intros acc Hall.
  - exists acc. split; [done|]. intros g. by rewrite decide_False by apply not_elem_of_nil.
  - destruct (Hall g') as [Hpos Hneg]; [left|].
    simpl. rewrite group_rates_ok by done. simpl.
    match goal with
    | |- context [Fair2.metrics_loop _ _ _ _ _ ?acc'] =>
        destruct (IH acc') as (metrics & -> & Hlook)
    end.
    { intros g Hg. apply Hall. by right. }
    exists metrics. split; [done|]. intros g. rewrite Hlook.
    destruct (decide (g ∈ groups)) as [Hin|Hin].
    + rewrite decide_True; [done|by right].
    + destruct (decide (g = g')) as [->|Hne].
      * rewrite lookup_insert_eq, decide_True; [done|left].
      * rewrite lookup_insert_ne by done.
        rewrite decide_False; [done|].
        by intros [?|?]%elem_of_cons.
Qed.

Lemma elem_of_uniq seen ks g : g ∈ uniq seen ks ↔ g ∈ ks ∧ g ∉ seen.
Proof.
  revert seen. induction ks as [|k ks IH]; intros seen; simpl.
  - split; [by intros ?%elem_of_nil|by intros [?%elem_of_nil _]].
  - case_decide as Hk.
    + rewrite IH, elem_of_cons. split; [intros [? ?]; split; [by right|done]|].
      intros [[->|?] ?]; [done|by split].
    + rewrite !elem_of_cons, IH, !elem_of_cons. split.
      * intros [->|[? Hn]]; [by split; [left|]|].
        split; [by right|]. intros ?. apply Hn. by right.
      * intros [[->|?] Hn]; [by left|].
        destruct (decide (g = k)) as [->|?]; [by left|right].
        split; [done|]. by intros [?|?].
Qed.

Lemma unique_ok df s :
  scalar_column df s →
  unique (cell s <$> rows df) = Ok (uniq [] (key_of <$> (cell s <$> rows df))).
Proof.
  intros Hsc. unfold unique. rewrite hashables_ok; [done|].
  apply Forall_fmap. exact Hsc.
Qed.

Lemma elem_of_groups df s g :
  g ∈ uniq [] (key_of <$> (cell s <$> rows df)) ↔
  ∃ r, r ∈ rows df ∧ key_of (cell s r) = g.
Proof.
  rewrite elem_of_uniq, <-list_fmap_compose, list_elem_of_fmap. split.
  - intros [(r & -> & Hr) _]. by exists r.
  - intros (r & Hr & <-). split; [by exists r|apply not_elem_of_nil].
Qed.

Lemma occurs_key df s g :
  scalar_column df s →
  occurs df s g ↔ ∃ r, r ∈ rows df ∧ key_of (cell s r) = g.
Proof.
  intros Hsc. unfold occurs. split.
  - intros (r & Hr & Hcell). exists r. by rewrite Hcell.
  - intros (r & Hr & Hkey). exists r. split; [done|].
    unfold scalar_column in Hsc. rewrite Forall_forall in Hsc.
    destruct (Hsc r Hr) as [k Hk]. rewrite Hk in Hkey |- *. by simplify_eq/=.
Qed.

(** C5: when some group of the sensitive column has no row with target
    [1], the evaluator does not report an undefined rate for it: the
    division [int / int] of line 48 raises [ZeroDivisionError] and no
    metrics are returned at all. *)
Theorem evaluate_model_performance_no_positives df s t p g :
  s ∈ columns df → t ∈ columns df → p ∈ columns df →
  scalar_column df s → occurs df s g → positives df s t g = 0%nat →
  Fair2.evaluate_model_performance df s t p = Raise ZeroDivisionError.
Proof.
  intros Hs Ht Hp Hsc Hocc Hpos. unfold Fair2.evaluate_model_performance.
  rewrite getitem_ok by done. unfold mbind, result_bind.
  rewrite unique_ok by done.
  apply (metrics_loop_raise df s t p _ g); try done.
  apply elem_of_groups. by apply occurs_key.
Qed.

Lemma evaluate_model_performance_no_positives_witness :
  Fair2.evaluate_model_performance scenarioE "group" "y" "p"
  = Raise ZeroDivisionError.
Proof.
  apply (evaluate_model_performance_no_positives scenarioE "group" "y" "p"
           (SStr "A")); [by_eval|by_eval|by_eval|by_eval| |reflexivity].
  eexists. split; [left|reflexivity].
Defined.




End performance.

(** * The conditional parity evaluator *)

Section conditional.

Implicit Types (df : DataFrame) (s c t : string) (a b : scalar).

Lemma zip3_rows s c t (l : list (gmap string value)) :
  zip (zip (cell s <$> l) (cell c <$> l)) (cell t <$> l)
  = (λ r, (cell s r, cell c r, cell t r)) <$> l.
Proof. induction l as [|r l IH]; [done|]. cbn. by f_equal. Qed.

Lemma mean_step_null (ka kb : scalar) (x : value)
    (acc : gmap (scalar * scalar) (Qc * nat)) :
  ka = SNull ∨ kb = SNull → mean_step ka kb x acc = Ok acc.
Proof. intros [-> | ->]; [done|by destruct ka]. Qed.

Lemma mean_step_num (ka kb : scalar) (q : Qc)
    (acc : gmap (scalar * scalar) (Qc * nat)) :
  ka ≠ SNull → kb ≠ SNull →
  mean_step ka kb (Scalar (SNum q)) acc
  = Ok (<[(ka, kb) := ((default (0, 0%nat) (acc !! (ka, kb))).1 + q,
                       S (default (0, 0%nat) (acc !! (ka, kb))).2)]> acc).
Proof.
  intros Ha Hb. destruct ka, kb; try done; simpl;
    by destruct (default _ _).
Qed.

(** The accumulator after all rows: per pair of keys, the sum and the
    number of the rows of that pair. *)
Lemma mean_acc_rows s c t (l : list (gmap string value)) :
  Forall (λ r, is_scalar (cell s r)) l →
  Forall (λ r, is_scalar (cell c r)) l →
  Forall (λ r, is_num (cell t r)) l →
  ∃ acc,
    mean_acc ((λ r, (cell s r, cell c r, cell t r)) <$> l) = Ok acc
    ∧ ∀ a b,
        acc !! (a, b) =
          let rs := filter (λ r, cell s r = Scalar a ∧ cell c r = Scalar b) l in
          if decide (a ≠ SNull ∧ b ≠ SNull ∧ 0 < length rs)%nat
          then Some (target_sum t rs, length rs) else None.
Proof.
  intros Hs Hc Ht. induction l as [|r l IH].
  { exists ∅. split; [done|]. intros a b. rewrite lookup_empty. simpl.
    rewrite decide_False; [done|]. intros (_ & _ & ?). lia. }
  apply Forall_cons in Hs as [[ka Hka] Hs].
  apply Forall_cons in Hc as [[kb Hkb] Hc].
  apply Forall_cons in Ht as [[q Hq] Ht].
  destruct (IH Hs Hc Ht) as (acc & Hacc & Hlook). clear IH.
  rewrite fmap_cons. cbn [mean_acc]. rewrite Hacc, Hka, Hkb, Hq.
  unfold mbind, result_bind, hashable.
  destruct (decide (ka = SNull ∨ kb = SNull)) as [Hnull|Hnn].
  - rewrite mean_step_null by done. exists acc. split; [done|].
    intros a b. rewrite Hlook. cbn zeta. rewrite filter_cons.
    destruct (decide (cell s r = Scalar a ∧ cell c r = Scalar b))
      as [[Ha Hb]|_]; [|done].
    rewrite Hka in Ha. rewrite Hkb in Hb. simplify_eq.
    rewrite !decide_False; [done|..]; intros (? & ? & _); by destruct Hnull.
  - assert (ka ≠ SNull ∧ kb ≠ SNull) as [Ha Hb]
      by (split; intros ->; apply Hnn; [by left|by right]).
    rewrite mean_step_num by done. eexists. split; [done|].
    intros a b. cbn zeta. rewrite filter_cons.
    destruct (decide (cell s r = Scalar a ∧ cell c r = Scalar b))
      as [[Ha' Hb']|Hne].
    + rewrite Hka in Ha'. rewrite Hkb in Hb'. simplify_eq.
      rewrite lookup_insert_eq, Hlook. cbn zeta.
      rewrite (decide_True
                 (P := a ≠ SNull ∧ b ≠ SNull ∧ (0 < length (_ :: _))%nat))
        by (repeat split; simpl; [done|done|lia]).
      cbn [target_sum foldr length]. rewrite Hq. cbn [num_of].
      destruct (decide _) as [_|Hz]; [done|]. simpl.
      destruct (filter _ l) as [|r' rs]; [simpl; by rewrite Qcplus_0_l|].
      destruct Hz. repeat split; simpl; [done|done|lia].
    + rewrite lookup_insert_ne, Hlook; [done|].
      intros [= -> ->]. by apply Hne.
Qed.

Lemma groupby2_mean_ok df s c t :
  s ∈ columns df → c ∈ columns df → t ∈ columns df →
  scalar_column df s → scalar_column df c → numeric_column df t →
  ∃ ser,
    groupby2_mean df s c t = Ok ser
    ∧ ∀ a b,
        ser !! (a, b) =
          if decide (a ≠ SNull ∧ b ≠ SNull
                     ∧ 0 < length (cell_rows df s c a b))%nat
          then Some (Some (cell_mean df s c t a b)) else None.
Proof.
  intros Hs Hc Ht Hss Hsc Hnt. unfold groupby2_mean.
  rewrite !getitem_ok by done. unfold mbind, result_bind.
  rewrite zip3_rows.
  destruct (mean_acc_rows s c t (rows df)) as (acc & -> & Hlook); try done.
  eexists. split; [done|]. intros a b.
  rewrite lookup_fmap, Hlook. cbn zeta. fold (cell_rows df s c a b).
  destruct (decide _) as [(_ & _ & Hpos)|_]; [|done].
  simpl. unfold mean_of. simpl. by rewrite decide_False by lia.
Qed.

Lemma entry_unstack (ser : gmap (scalar * scalar) (option Qc)) a b :
  entry (unstack ser) a b = mjoin (ser !! (a, b)).
Proof.
  unfold entry, unstack.
  rewrite map_lookup_imap, lookup_gset_to_gmap.
  destruct (ser !! (a, b)) as [x|] eqn:Hab.
  - assert ((a, b) ∈ dom ser) as Hdom by (apply elem_of_dom; eauto).
    rewrite option_guard_True by
      (apply elem_of_map; exists (a, b); by split).
    simpl. rewrite map_lookup_imap, lookup_gset_to_gmap.
    rewrite option_guard_True by
      (apply elem_of_map; exists (a, b); by split).
    simpl. by rewrite Hab.
  - simpl. case_guard; simpl; [|done].
    rewrite map_lookup_imap, lookup_gset_to_gmap.
    case_guard; simpl; [|done]. by rewrite Hab.
Qed.

(** C7: the matrix that [conditional_statistical_parity] returns holds,
    for every pair of a sensitive value and a control value with at least
    one row, the mean of the target over the rows of the pair, and holds no
    number for a pair without rows: such a cell is [NaN], the missing
    value of pandas, or lies outside the frame. *)
Theorem conditional_statistical_parity_cells df s t v c :
  s ∈ columns df → t ∈ columns df → c ∈ columns df →
  scalar_column df s → scalar_column df c → numeric_column df t →
  ∃ M,
    Fair2.conditional_statistical_parity df s t v c = Ok M
    ∧ (∀ a b, a ≠ SNull → b ≠ SNull →
         (0 < length (cell_rows df s c a b))%nat →
         ∃ row, M !! a = Some row
                ∧ row !! b = Some (Some (cell_mean df s c t a b)))
    ∧ (∀ a b, length (cell_rows df s c a b) = 0%nat → entry M a b = None).
Proof.
  intros Hs Ht Hc Hss Hsc Hnt. unfold Fair2.conditional_statistical_parity.
  destruct (groupby2_mean_ok df s c t) as (ser & -> & Hlook); try done.
  eexists. split; [done|]. split.
  - intros a b Ha Hb Hpos.
    pose proof (entry_unstack ser a b) as Hentry.
    rewrite Hlook, decide_True in Hentry by done. simpl in Hentry.
    unfold entry in Hentry.
    destruct (unstack ser !! a) as [row|]; [|done]. simpl in Hentry.
    exists row. split; [done|].
    destruct (row !! b) as [[x|]|]; simpl in Hentry; by simplify_eq.
  - intros a b Hzero. rewrite entry_unstack, Hlook.
    rewrite decide_False; [done|]. intros (_ & _ & ?). lia.
Qed.

Lemma conditional_statistical_parity_cells_witness :
  ∃ M,
    Fair2.conditional_statistical_parity tbl2 "group" "y" one "c" = Ok M
    ∧ (∀ a b, a ≠ SNull → b ≠ SNull →
         (0 < length (cell_rows tbl2 "group" "c" a b))%nat →
         ∃ row, M !! a = Some row
                ∧ row !! b
                  = Some (Some (cell_mean tbl2 "group" "c" "y" a b)))
    ∧ (∀ a b, length (cell_rows tbl2 "group" "c" a b) = 0%nat
              → entry M a b = None).
Proof.
  apply (conditional_statistical_parity_cells tbl2 "group" "y" one "c");
    by_eval.
Defined.

End conditional.

(** * Further properties of the statistical parity evaluator *)

Section parity_outcomes.

Implicit Types (df : DataFrame) (s t : string) (v g : scalar).

Lemma hashables_not_scalar col :
  ¬ Forall is_scalar col → hashables col = Raise TypeError.
Proof.
  intros Hno. destruct (hashables col) as [ks|e] eqn:Hks.
  - by apply hashables_inv in Hks as [? _].
  - by apply hashables_raise in Hks as ->.
Qed.

Lemma groupby_size_absent df s :
  s ∉ columns df → groupby_size df s = Raise KeyError.
Proof. intros Hs. unfold groupby_size. by rewrite getitem_absent. Qed.

Lemma groupby_size_raise df s e :
  s ∈ columns df → groupby_size df s = Raise e → e = TypeError.
Proof.
  intros Hs. unfold groupby_size. rewrite getitem_ok by done. simpl.
  destruct (hashables _) as [ks|e'] eqn:Hks; simpl; [done|].
  intros [= <-]. by apply hashables_raise in Hks.
Qed.

Lemma groupby_size_unhashable df s :
  s ∈ columns df → ¬ scalar_column df s →
  groupby_size df s = Raise TypeError.
Proof.
  intros Hs Hno. unfold groupby_size. rewrite getitem_ok by done. simpl.
  rewrite hashables_not_scalar; [done|].
  intros Hall. apply Hno. unfold scalar_column.
  apply Forall_forall. intros r Hr.
  eapply Forall_forall; [exact Hall|]. by apply list_elem_of_fmap_2.
Qed.

Lemma proportions_absent df s t v :
  t ∉ columns df ∨ s ∉ columns df → proportions df s t v = Raise KeyError.
Proof.
  intros Habs. unfold proportions.
  destruct (decide (t ∈ columns df)) as [Ht|Ht];
    [|by rewrite getitem_absent].
  destruct Habs as [?|Hs]; [done|].
  rewrite getitem_ok by done. cbn [mbind result_bind].
  by rewrite (groupby_size_absent (getitem_mask _ _)).
Qed.

Lemma proportions_unhashable df s t v :
  s ∈ columns df → t ∈ columns df → ¬ scalar_column df s →
  proportions df s t v = Raise TypeError.
Proof.
  intros Hs Ht Hno. unfold proportions. rewrite getitem_ok by done. simpl.
  destruct (groupby_size (getitem_mask _ _) s) as [num|e] eqn:Hnum; simpl.
  - by rewrite groupby_size_unhashable.
  - by apply groupby_size_raise in Hnum as ->.
Qed.

Lemma proportions_raise df s t v e :
  proportions df s t v = Raise e → e = KeyError ∨ e = TypeError.
Proof.
  destruct (decide (t ∈ columns df)) as [Ht|Ht];
    [|rewrite proportions_absent by auto; intros [= <-]; by left].
  destruct (decide (s ∈ columns df)) as [Hs|Hs];
    [|rewrite proportions_absent by auto; intros [= <-]; by left].
  destruct (decide (scalar_column df s)) as [Hsc|Hsc].
  - by rewrite proportions_ok.
  - rewrite proportions_unhashable by done. intros [= <-]. by right.
Qed.

Lemma proportion_series_empty df s t v :
  proportion_series df s t v = ∅ ↔ ¬ ∃ g, g ≠ SNull ∧ occurs df s g.
Proof.
  split.
  - intros Hempty (g & Hg & Hocc).
    apply (f_equal (λ m : gmap scalar Qc, m !! g)) in Hempty.
    rewrite proportion_series_lookup, lookup_empty in Hempty.
    rewrite decide_True in Hempty; [done|]. split; [done|].
    by apply group_size_pos.
  - intros Hno. apply map_eq. intros g.
    rewrite proportion_series_lookup, lookup_empty.
    destruct (decide _) as [[Hg Hpos]|_]; [|done].
    destruct Hno. exists g. split; [done|]. by apply group_size_pos.
Qed.

(** A successful call, from facts that evaluate to booleans. *)
Lemma fair_check_by_eval df s t v fair :
  s ∈ columns df → t ∈ columns df → scalar_column df s →
  match max_disparity (proportion_series df s t v) with
  | Ok d => bool_decide (bool_decide (d ≤ threshold) = fair)
  | Raise _ => false
  end = true →
  Fair.statistical_parity_check df s t v
  = Ok (proportion_series df s t v, fair).
Proof.
  intros Hs Ht Hsc Hcheck. unfold Fair.statistical_parity_check.
  rewrite proportions_ok by done. simpl.
  destruct (max_disparity _) as [d|e]; [|done]. simpl.
  by apply bool_decide_eq_true in Hcheck as ->.
Qed.

(** A column that the table does not have: both evaluators raise
    [KeyError], whichever of the two columns is the absent one. *)
Theorem statistical_parity_check_missing_column df s t v :
  t ∉ columns df ∨ s ∉ columns df →
  Fair.statistical_parity_check df s t v = Raise KeyError
  ∧ FairCompas.statistical_parity_check df s t v = Raise KeyError.
Proof.
  intros Habs.
  unfold Fair.statistical_parity_check, FairCompas.statistical_parity_check.
  by rewrite proportions_absent.
Qed.

Lemma statistical_parity_check_missing_column_witness :
  Fair.statistical_parity_check scenarioB "gender" "y" one = Raise KeyError
  ∧ FairCompas.statistical_parity_check scenarioB "gender" "y" one
    = Raise KeyError.
Proof.
  apply (statistical_parity_check_missing_column scenarioB "gender" "y" one).
  right. by_eval.
Defined.

(** A list cell in the sensitive column cannot be a group key: both
    evaluators raise [TypeError], whether or not the row of that cell has
    the target value. *)
Theorem statistical_parity_check_unhashable df s t v :
  s ∈ columns df → t ∈ columns df → ¬ scalar_column df s →
  Fair.statistical_parity_check df s t v = Raise TypeError
  ∧ FairCompas.statistical_parity_check df s t v = Raise TypeError.
Proof.
  intros Hs Ht Hno.
  unfold Fair.statistical_parity_check, FairCompas.statistical_parity_check.
  by rewrite proportions_unhashable.
Qed.

Lemma statistical_parity_check_unhashable_witness :
  Fair.statistical_parity_check list_group "group" "y" one = Raise TypeError
  ∧ FairCompas.statistical_parity_check list_group "group" "y" one
    = Raise TypeError.
Proof.
  apply (statistical_parity_check_unhashable list_group "group" "y" one);
    by_eval.
Defined.

(** The evaluator of fair.py returns exactly when the table has both
    columns, no sensitive cell is a list and some sensitive cell is not
    missing. *)
Theorem statistical_parity_check_returns_iff df s t v :
  is_ok (Fair.statistical_parity_check df s t v)
  ↔ s ∈ columns df ∧ t ∈ columns df ∧ scalar_column df s
    ∧ ∃ g, g ≠ SNull ∧ occurs df s g.
Proof.
  split.
  - intros [[m fair] Hrun].
    apply fair_check_inv in Hrun as (Hm & d & Hd & _).
    apply proportions_inv in Hm as (Hs & Ht & Hsc & ->).
    do 3 (split; [done|]).
    destruct (decide (proportion_series df s t v = ∅)) as [Hempty|Hne].
    + rewrite Hempty in Hd. by vm_compute in Hd.
    + apply map_choose in Hne as (g & p & Hg). exists g.
      rewrite proportion_series_lookup in Hg.
      destruct (decide _) as [[Hnn Hpos]|_]; [|done].
      split; [done|]. by apply group_size_pos.
  - intros (Hs & Ht & Hsc & g & Hg & Hocc).
    destruct (fair_check_ok df s t v g) as [fair Hfair]; try done.
    by eexists.
Qed.

(** The evaluator of faircompas.py is the one of fair.py with one outcome
    changed: where fair.py raises [ValueError] (no group at all) it returns
    the empty map and [True]; every other result or exception is the
    same. *)
Theorem compas_check_vs_fair_check df s t v :
  FairCompas.statistical_parity_check df s t v
  = match Fair.statistical_parity_check df s t v with
    | Raise ValueError => Ok (∅, true)
    | r => r
    end.
Proof.
  unfold Fair.statistical_parity_check, FairCompas.statistical_parity_check.
  destruct (proportions df s t v) as [m|e] eqn:Hm; simpl.
  - destruct (decide (m = ∅)) as [->|Hne]; [done|].
    destruct (max_disparity m) as [d|e] eqn:Hd; [done|].
    by apply max_disparity_raise in Hd as [? _].
  - by apply proportions_raise in Hm as [-> | ->].
Qed.

Lemma group_counts_perm df df' s t v g :
  rows df ≡ₚ rows df' →
  group_size df s g = group_size df' s g
  ∧ group_hits df s t v g = group_hits df' s t v g.
Proof.
  intros Hperm. unfold group_size, group_hits. by rewrite Hperm.
Qed.

Lemma proportions_perm df df' s t v :
  columns df = columns df' → rows df ≡ₚ rows df' →
  proportions df s t v = proportions df' s t v.
Proof.
  intros Hcols Hperm.
  destruct (decide (t ∈ columns df ∧ s ∈ columns df)) as [[Ht Hs]|Habs].
  - assert (scalar_column df s ↔ scalar_column df' s) as Hsc
      by (unfold scalar_column; by rewrite Hperm).
    destruct (decide (scalar_column df s)) as [Hyes|Hno].
    + rewrite !proportions_ok; try done; [|by rewrite <-Hcols..|by apply Hsc].
      f_equal. apply map_eq. intros g. rewrite !proportion_series_lookup.
      by destruct (group_counts_perm df df' s t v g Hperm) as [-> ->].
    + rewrite !proportions_unhashable; try done; [by rewrite <-Hcols..|].
      by rewrite <-Hsc.
  - rewrite !proportions_absent; [done|rewrite <-Hcols|];
      (destruct (decide (t ∈ columns df)); [right|left]; naive_solver).
Qed.

(** The order of the rows does not matter: a table with the same rows in
    another order gives the same proportions, the same verdict and, when
    the call fails, the same exception. *)
Theorem statistical_parity_check_row_order df df' s t v :
  columns df = columns df' → rows df ≡ₚ rows df' →
  Fair.statistical_parity_check df s t v
  = Fair.statistical_parity_check df' s t v
  ∧ FairCompas.statistical_parity_check df s t v
    = FairCompas.statistical_parity_check df' s t v.
Proof.
  intros Hcols Hperm.
  unfold Fair.statistical_parity_check, FairCompas.statistical_parity_check.
  by rewrite (proportions_perm df df').
Qed.

Lemma statistical_parity_check_row_order_witness :
  Fair.statistical_parity_check scenarioB "group" "y" one
  = Fair.statistical_parity_check
      (mkDataFrame (columns scenarioB) (reverse (rows scenarioB)))
      "group" "y" one
  ∧ FairCompas.statistical_parity_check scenarioB "group" "y" one
    = FairCompas.statistical_parity_check
        (mkDataFrame (columns scenarioB) (reverse (rows scenarioB)))
        "group" "y" one.
Proof.
  apply (statistical_parity_check_row_order scenarioB
           (mkDataFrame (columns scenarioB) (reverse (rows scenarioB))));
    [reflexivity|]. simpl. symmetry. apply reverse_Permutation.
Defined.

Lemma compas_check_inv_verdict df s t v m fair :
  FairCompas.statistical_parity_check df s t v = Ok (m, fair) →
  m = ∅ ∧ fair = true
  ∨ ∃ d, max_disparity m = Ok d ∧ fair = bool_decide (d ≤ threshold).
Proof.
  unfold FairCompas.statistical_parity_check.
  destruct (proportions df s t v) as [m'|e]; [|done]. simpl.
  case_decide as Hm; [intros [= <- <-]; by left|].
  destruct (max_disparity m') as [d|e] eqn:Hd; [|done]. simpl.
  intros [= <- <-]. right. eauto.
Qed.

Lemma Qcle_minus_mono (p p' hi lo : Qc) :
  p ≤ hi → lo ≤ p' → p - p' ≤ hi - lo.
Proof.
  intros H1 H2. unfold Qcminus. apply Qcplus_le_compat; [done|].
  by apply Qcopp_le_compat.
Qed.

(** When no row has the target value, every group has proportion 0 and
    the verdict is [True].  This is what happens when the target value
    is a string, as read by [input()] in fair.py and fair2.py, and the
    labels are numbers: [==] does not cast. *)
Theorem statistical_parity_check_no_hits df s t v m fair :
  Fair.statistical_parity_check df s t v = Ok (m, fair)
  ∨ FairCompas.statistical_parity_check df s t v = Ok (m, fair) →
  (∀ r, r ∈ rows df → py_eq (cell t r) v = false) →
  (∀ g p, m !! g = Some p → p = 0) ∧ fair = true.
Proof.
  intros Hret Hmiss.
  assert (proportions df s t v = Ok m) as Hm.
  { destruct Hret as [H|H]; [by apply fair_check_inv in H as [? _]|].
    by apply compas_check_inv in H. }
  apply proportions_inv in Hm as (_ & _ & _ & Hm).
  assert (∀ g p, m !! g = Some p → p = 0) as Hzero.
  { intros g p. rewrite Hm, proportion_series_lookup.
    destruct (decide _) as [_|_]; [|done]. intros [= <-].
    assert (group_hits df s t v g = 0%nat) as ->.
    { unfold group_hits.
      induction (rows df) as [|r l IH]; [done|].
      rewrite filter_cons, decide_False; [apply IH|].
      - intros r' Hr'. apply Hmiss. by right.
      - intros [_ Hhit]. rewrite Hmiss in Hhit; [done|left]. }
    unfold Qcdiv. by rewrite Qc_of_nat_0, Qcmult_0_l. }
  split; [done|].
  assert (∀ d, max_disparity m = Ok d → bool_decide (d ≤ threshold) = true)
    as Hfair.
  { intros d Hd. apply max_disparity_ok in Hd
      as (hi & lo & ((g1 & H1) & (g2 & H2) & _) & ->).
    rewrite (Hzero g1 hi H1), (Hzero g2 lo H2). by apply bool_decide_eq_true. }
  destruct Hret as [H|H].
  - apply fair_check_inv in H as (_ & d & Hd & ->). by apply Hfair.
  - apply compas_check_inv_verdict in H as [[_ ->]|(d & Hd & ->)];
      [done|by apply Hfair].
Qed.

Lemma statistical_parity_check_no_hits_witness :
  (∀ g p, proportion_series scenarioB "group" "y" (SStr "1") !! g = Some p
          → p = 0)
  ∧ true = true.
Proof.
  apply (statistical_parity_check_no_hits scenarioB "group" "y" (SStr "1")
           (proportion_series scenarioB "group" "y" (SStr "1")) true).
  - left. apply fair_check_by_eval; [by_eval|by_eval|by_eval|].
    vm_compute. reflexivity.
  - intros r Hr.
    repeat (apply elem_of_cons in Hr as [->|Hr]);
      [..|by apply elem_of_nil in Hr]; reflexivity.
Defined.

(** The verdict is [False] exactly when two groups of the returned map
    have proportions more than 0.1 apart. *)
Theorem statistical_parity_check_unfair_iff df s t v m fair :
  Fair.statistical_parity_check df s t v = Ok (m, fair) →
  (fair = false
   ↔ ∃ g g' p p', m !! g = Some p ∧ m !! g' = Some p'
                  ∧ threshold < p - p').
Proof.
  intros (_ & d & Hd & ->)%fair_check_inv.
  apply max_disparity_ok in Hd as (hi & lo & (Hhi & Hlo & Hbounds) & ->).
  rewrite bool_decide_eq_false. split.
  - intros Hlt%Qcnot_le_lt. destruct Hhi as [g Hg], Hlo as [g' Hg'].
    by exists g, g', hi, lo.
  - intros (g & g' & p & p' & Hg & Hg' & Hlt). apply Qclt_not_le.
    eapply Qclt_le_trans; [exact Hlt|].
    apply Qcle_minus_mono; [by apply (Hbounds g)|by apply (Hbounds g')].
Qed.

Lemma statistical_parity_check_unfair_iff_witness :
  false = false
  ↔ ∃ g g' p p',
      proportion_series scenarioB "group" "y" one !! g = Some p
      ∧ proportion_series scenarioB "group" "y" one !! g' = Some p'
      ∧ threshold < p - p'.
Proof.
  apply (statistical_parity_check_unfair_iff scenarioB "group" "y" one).
  apply fair_check_by_eval; [by_eval|by_eval|by_eval|].
  vm_compute. reflexivity.
Defined.

End parity_outcomes.

(** * The normalizer followed by the evaluator *)

Section pipeline.

Implicit Types (df : DataFrame) (s t : string) (v g : scalar).

Lemma cell_insert_eq t x (r : gmap string value) : cell t (<[t := x]> r) = x.
Proof. unfold cell. by rewrite lookup_insert_eq. Qed.

Lemma cell_insert_ne s t x (r : gmap string value) :
  s ≠ t → cell s (<[t := x]> r) = cell s r.
Proof. intros Hne. unfold cell. by rewrite lookup_insert_ne. Qed.

(** Counting over the rows of [df[t] = f(df[t])]. *)
Lemma filter_setitem_rows s t (f : value → value)
    (P : value → value → Prop) {Pdec : ∀ x y, Decision (P x y)}
    (l : list (gmap string value)) :
  s ≠ t →
  length (filter (λ r, P (cell s r) (cell t r))
            (zip_with (λ r x, <[t := x]> r) l (f <$> (cell t <$> l))))
  = length (filter (λ r, P (cell s r) (f (cell t r))) l).
Proof.
  intros Hne. induction l as [|r l IH]; [done|].
  rewrite !fmap_cons. cbn [zip_with]. rewrite !filter_cons.
  rewrite cell_insert_eq, cell_insert_ne by done.
  case_decide; simpl; by rewrite IH.
Qed.

Lemma py_eq_first_or_none x v :
  py_eq (Fair.first_or_none x) v = head_hits x v.
Proof. by destruct x as [[]|[|a l]]. Qed.

Lemma preprocess_with_lists df t :
  t ∈ columns df → ¬ Forall is_scalar (cell t <$> rows df) →
  Fair.preprocess_target_column df t
  = Ok (setitem df t (Fair.first_or_none <$> (cell t <$> rows df))).
Proof.
  intros Ht Hlists. unfold Fair.preprocess_target_column.
  rewrite getitem_ok by done. simpl.
  destruct (existsb _ _) eqn:Hany; [done|].
  by apply existsb_isinstance_false in Hany.
Qed.

Lemma preprocess_inv df t df' :
  Fair.preprocess_target_column df t = Ok df' → t ∈ columns df.
Proof.
  unfold Fair.preprocess_target_column.
  destruct (getitem df t) as [col|e] eqn:Hcol; [|done].
  by apply getitem_inv in Hcol as [? _].
Qed.

(** Lines 92-95 of fair.py, on a target column that holds some list: after
    [preprocess_target_column] the evaluator counts, for a group, the rows
    whose target was a non-empty list with first element [target_value],
    over all the rows of the group.  A row whose target was the scalar
    [target_value] itself still counts in the denominator and no longer in
    the numerator. *)
Theorem preprocess_then_check df df' s t v m fair :
  s ≠ t → ¬ Forall is_scalar (cell t <$> rows df) →
  Fair.preprocess_target_column df t = Ok df' →
  Fair.statistical_parity_check df' s t v = Ok (m, fair) →
  ∀ g p, m !! g = Some p →
    p = (Qc_of_nat (length (filter (λ r, cell s r = Scalar g
                                         ∧ head_hits (cell t r) v)
                              (rows df)))
         / Qc_of_nat (group_size df s g)).
Proof.
  intros Hne Hlists Hpre Hrun g p.
  pose proof (preprocess_inv _ _ _ Hpre) as Ht.
  rewrite preprocess_with_lists in Hpre by done. injection Hpre as <-.
  apply fair_check_inv in Hrun as [Hm _].
  apply proportions_inv in Hm as (_ & _ & _ & ->).
  rewrite proportion_series_lookup.
  destruct (decide _) as [_|_]; [|done]. intros [= <-].
  unfold group_hits, group_size, setitem. cbn [rows].
  pose proof (filter_setitem_rows s t Fair.first_or_none
                (λ x y, x = Scalar g ∧ py_eq y v) (rows df) Hne) as Hhits.
  pose proof (filter_setitem_rows s t Fair.first_or_none
                (λ x _, x = Scalar g)
                (Pdec := λ x _, decide (x = Scalar g)) (rows df) Hne)
    as Hsize.
  cbv beta in Hhits, Hsize. f_equal; f_equal.
  - etrans; [exact Hhits|]. f_equal. apply list_filter_iff. intros r.
    by rewrite py_eq_first_or_none.
  - exact Hsize.
Qed.

Lemma preprocess_then_check_witness :
  Qc_of_nat 1 / Qc_of_nat 2
  = Qc_of_nat (length (filter (λ r, cell "group" r = Scalar (SStr "A")
                                    ∧ head_hits (cell "y" r) one)
                         (rows scenarioD)))
    / Qc_of_nat (group_size scenarioD "group" (SStr "A")).
Proof.
  pose (df' := setitem scenarioD "y"
                 (Fair.first_or_none <$> (cell "y" <$> rows scenarioD))).
  apply (preprocess_then_check scenarioD df' "group" "y" one
           (proportion_series df' "group" "y" one) false).
  - done.
  - intros Hall. by apply Forall_cons in Hall as [[k [=]] _].
  - apply preprocess_with_lists; [by_eval|].
    intros Hall. by apply Forall_cons in Hall as [[k [=]] _].
  - apply fair_check_by_eval; [by_eval|by_eval|by_eval|].
    vm_compute. reflexivity.
  - vm_compute. reflexivity.
Defined.

End pipeline.

(** * Further properties of the orchestrators *)

Section orchestrators.

Implicit Types (df : DataFrame) (t : string) (v : scalar).

(** A column of the table on which the evaluator raises ends the loop of
    fair.py: its heading is the last line printed, the exception leaves
    [analyze_fairness], and the columns after it are not looked at. *)
Theorem analyze_fairness_stops_at_exception df pre c post t v e :
  c ∈ columns df →
  Fair.statistical_parity_check df c t v = Raise e →
  Fair.analyze_fairness df (pre ++ c :: post) t v
  = then_run (Fair.analyze_fairness df pre t v)
             ([Fair.AnalysisFor c], Raise e).
Proof.
  intros Hc Hraise. rewrite analyze_fairness_app. f_equal.
  simpl. by rewrite decide_True, Hraise.
Qed.

Lemma analyze_fairness_stops_at_exception_witness :
  Fair.analyze_fairness all_null (["gender"] ++ "group" :: ["y"]) "y" one
  = then_run (Fair.analyze_fairness all_null ["gender"] "y" one)
             ([Fair.AnalysisFor "group"], Raise ValueError).
Proof.
  apply (analyze_fairness_stops_at_exception all_null ["gender"] "group"
           ["y"] "y" one ValueError); [by_eval|].
  vm_compute. reflexivity.
Defined.

Lemma printed_lines_plot d c : printed_lines (plot_disparities d c) = [].
Proof. unfold plot_disparities. by case_match. Qed.

(** The orchestrator of fair2.py is the one of fair.py with the chart
    step after each result: it prints the same lines in the same order and
    ends in the same way. *)
Theorem fair2_analyze_fairness_lines df cols t v :
  printed_lines (Fair2.analyze_fairness df cols t v).1
  = (Fair.analyze_fairness df cols t v).1
  ∧ (Fair2.analyze_fairness df cols t v).2
    = (Fair.analyze_fairness df cols t v).2.
Proof.
  induction cols as [|c cols [IH1 IH2]]; [done|]. simpl.
  unfold Fair2.statistical_parity_check.
  destruct (decide (c ∈ columns df)) as [Hc|Hc].
  - destruct (Fair.statistical_parity_check df c t v) as [[d f]|err]; [|done].
    destruct (Fair2.analyze_fairness df cols t v) as [out2 r2].
    destruct (Fair.analyze_fairness df cols t v) as [out1 r1].
    simpl in *. unfold printed_lines in *. simpl.
    rewrite omap_app. fold (printed_lines (plot_disparities d c)).
    rewrite printed_lines_plot. simpl. by rewrite IH1, IH2.
  - destruct (Fair2.analyze_fairness df cols t v) as [out2 r2].
    destruct (Fair.analyze_fairness df cols t v) as [out1 r1].
    simpl in *. unfold printed_lines in *. simpl. by rewrite IH1, IH2.
Qed.

Lemma compas_check_io_result df s t v :
  (FairCompas.statistical_parity_check_io df s t v).2
  = FairCompas.statistical_parity_check df s t v.
Proof.
  unfold FairCompas.statistical_parity_check_io,
    FairCompas.statistical_parity_check.
  destruct (proportions df s t v) as [m|e]; [|done]. simpl.
  by case_decide.
Qed.

Lemma compas_check_ok df s t v :
  s ∈ columns df → t ∈ columns df → scalar_column df s →
  is_ok (FairCompas.statistical_parity_check df s t v).
Proof.
  intros Hs Ht Hsc. unfold FairCompas.statistical_parity_check.
  rewrite proportions_ok by done. simpl.
  case_decide as Hempty; [by eexists|].
  destruct (max_disparity _) as [d|e] eqn:Hd; simpl; [by eexists|].
  by apply max_disparity_raise in Hd as [? _].
Qed.

(** The orchestrator of faircompas.py runs to its end whenever the table
    has the target column and no sensitive column of the table holds a
    list: a column without any value does not stop it. *)
Theorem compas_analyze_fairness_completes df cols t v :
  t ∈ columns df →
  (∀ c, c ∈ cols → c ∈ columns df → scalar_column df c) →
  (FairCompas.analyze_fairness df cols t v).2 = Ok ().
Proof.
  intros Ht Hall. induction cols as [|c cols IH]; [done|].
  assert ((FairCompas.analyze_fairness df cols t v).2 = Ok ()) as Hrest
    by (apply IH; intros c' Hc'; apply Hall; by right).
  simpl. destruct (decide (c ∈ columns df)) as [Hc|Hc].
  - pose proof (compas_check_io_result df c t v) as Hio.
    destruct (FairCompas.statistical_parity_check_io df c t v) as [out0 r0].
    simpl in Hio. subst r0.
    destruct (compas_check_ok df c t v) as [[d f] ->]; [done|done| |].
    { apply Hall; [left|done]. }
    by destruct (FairCompas.analyze_fairness df cols t v).
  - by destruct (FairCompas.analyze_fairness df cols t v).
Qed.

Lemma compas_analyze_fairness_completes_witness :
  (FairCompas.analyze_fairness all_null ["gender"; "group"; "y"] "y" one).2
  = Ok ().
Proof.
  apply (compas_analyze_fairness_completes all_null); [by_eval|].
  intros c Hc _.
  repeat (apply elem_of_cons in Hc as [->|Hc]);
    [..|by apply elem_of_nil in Hc]; by_eval.
Defined.

Lemma all_zero_spec (d : gmap scalar Qc) :
  forallb (λ value, bool_decide (value = 0)) (values d) = true
  ↔ ∀ g p, d !! g = Some p → p = 0.
Proof.
  rewrite forallb_forall. split.
  - intros Hall g p Hg. eapply bool_decide_eq_true_1, Hall.
    apply list_elem_of_In, elem_of_values. eauto.
  - intros Hall x [g Hg]%list_elem_of_In%elem_of_values.
    apply bool_decide_eq_true_2. by apply (Hall g).
Qed.

Lemma ratio_pos n d :
  (0 < n)%nat → (0 < d)%nat → 0 < Qc_of_nat n / Qc_of_nat d.
Proof.
  intros Hn Hd. unfold Qcdiv.
  apply Qcmult_pos_pos; [|apply Qcinv_pos]; by apply Qc_of_nat_pos.
Qed.

Lemma group_hits_pos df s t v g :
  (0 < group_hits df s t v g)%nat
  ↔ ∃ r, r ∈ rows df ∧ cell s r = Scalar g ∧ py_eq (cell t r) v.
Proof.
  unfold group_hits. split.
  - intros Hlen.
    destruct (filter _ (rows df)) as [|r l] eqn:Hf; [simpl in Hlen; lia|].
    assert (r ∈ filter (λ r, cell s r = Scalar g ∧ py_eq (cell t r) v)
                  (rows df)) as Hin by (rewrite Hf; left).
    apply list_elem_of_filter in Hin as [[? ?] ?]. by exists r.
  - intros (r & Hr & Hg & Hhit).
    assert (r ∈ filter (λ r, cell s r = Scalar g ∧ py_eq (cell t r) v)
                  (rows df)) as Hin by (by apply list_elem_of_filter).
    destruct (filter _ (rows df)); [by apply elem_of_nil in Hin|simpl; lia].
Qed.

(** In fair2.py the bar chart of a column is drawn exactly when some row
    with a sensitive value has the target value; otherwise all the
    proportions are 0 and only the message is printed. *)
Theorem chart_drawn_iff df s t v m fair :
  Fair.statistical_parity_check df s t v = Ok (m, fair) →
  (plot_disparities m s = [BarChart s m]
   ↔ ∃ r, r ∈ rows df ∧ cell s r ≠ Null ∧ py_eq (cell t r) v)
  ∧ (plot_disparities m s = [NoChart s]
     ↔ ¬ ∃ r, r ∈ rows df ∧ cell s r ≠ Null ∧ py_eq (cell t r) v).
Proof.
  intros [Hm _]%fair_check_inv.
  apply proportions_inv in Hm as (_ & _ & Hsc & ->).
  set (m := proportion_series df s t v).
  assert ((∀ g p, m !! g = Some p → p = 0)
          ↔ ¬ ∃ r, r ∈ rows df ∧ cell s r ≠ Null ∧ py_eq (cell t r) v)
    as Hzero.
  { split.
    - intros Hall (r & Hr & Hnn & Hhit).
      unfold scalar_column in Hsc. rewrite Forall_forall in Hsc.
      destruct (Hsc r Hr) as [g Hg].
      assert (g ≠ SNull) as Hgn by (intros ->; by apply Hnn).
      assert (0 < group_hits df s t v g)%nat as Hpos
        by (apply group_hits_pos; eauto).
      pose proof (group_hits_le df s t v g) as Hle.
      specialize (Hall g (Qc_of_nat (group_hits df s t v g)
                          / Qc_of_nat (group_size df s g))).
      assert (0 < Qc_of_nat (group_hits df s t v g)
                  / Qc_of_nat (group_size df s g)) as Hlt
        by (apply ratio_pos; lia).
      rewrite Hall in Hlt; [by apply Qclt_not_eq in Hlt|].
      unfold m. rewrite proportion_series_lookup, decide_True; [done|].
      split; [done|lia].
    - intros Hno g p. unfold m. rewrite proportion_series_lookup.
      destruct (decide _) as [[Hgn Hpos]|_]; [|done]. intros [= <-].
      assert (group_hits df s t v g = 0%nat) as ->.
      { destruct (group_hits df s t v g) eqn:Hh; [done|].
        destruct Hno.
        destruct (proj1 (group_hits_pos df s t v g)) as (r & Hr & Hg & Hhit);
          [lia|].
        exists r. split; [done|]. split; [|done].
        rewrite Hg. intros [= ->]. done. }
      unfold Qcdiv. by rewrite Qc_of_nat_0, Qcmult_0_l. }
  unfold plot_disparities.
  destruct (forallb _ _) eqn:Hall.
  - pose proof (proj1 Hzero (proj1 (all_zero_spec m) Hall)) as Hnone.
    split; [split; [done|]|done].
    intros Hex. by destruct Hnone.
  - assert (¬ ¬ ∃ r, r ∈ rows df ∧ cell s r ≠ Null ∧ py_eq (cell t r) v)
      as Hnn.
    { intros Hno.
      pose proof (proj2 (all_zero_spec m) (proj2 Hzero Hno)). congruence. }
    split; [split; [|done]|split; [done|intros Hno; by destruct Hnn]].
    intros _.
    destruct (decide (Exists (λ r, cell s r ≠ Null ∧ py_eq (cell t r) v)
                        (rows df))) as [Hex|Hno].
    + apply Exists_exists in Hex as (r & Hr & ? & ?). by exists r.
    + destruct Hnn. intros (r & Hr & ? & ?). apply Hno.
      apply Exists_exists. by exists r.
Qed.

Lemma chart_drawn_iff_witness :
  (plot_disparities (proportion_series scenarioB "group" "y" one) "group"
   = [BarChart "group" (proportion_series scenarioB "group" "y" one)]
   ↔ ∃ r, r ∈ rows scenarioB ∧ cell "group" r ≠ Null
          ∧ py_eq (cell "y" r) one)
  ∧ (plot_disparities (proportion_series scenarioB "group" "y" one) "group"
     = [NoChart "group"]
     ↔ ¬ ∃ r, r ∈ rows scenarioB ∧ cell "group" r ≠ Null
              ∧ py_eq (cell "y" r) one).
Proof.
  apply (chart_drawn_iff scenarioB "group" "y" one _ false).
  apply fair_check_by_eval; [by_eval|by_eval|by_eval|].
  vm_compute. reflexivity.
Defined.

End orchestrators.

(** * Further properties of the performance parity evaluator *)

Section performance_outcomes.

Implicit Types (df : DataFrame) (s t p : string) (g : scalar).

Lemma group_rates_absent df s t p g :
  s ∉ columns df ∨ t ∉ columns df ∨ p ∉ columns df →
  Fair2.group_rates df s t p g = Raise KeyError.
Proof.
  intros Habs. unfold Fair2.group_rates.
  destruct (decide (s ∈ columns df)) as [Hs|Hs];
    [|by rewrite getitem_absent].
  rewrite (getitem_ok df s) by done. cbn [mbind result_bind].
  destruct (decide (t ∈ columns df)) as [Ht|Ht];
    [|by rewrite (getitem_absent (getitem_mask _ _))].
  rewrite (getitem_ok (getitem_mask _ _) t) by done. cbn [mbind result_bind].
  destruct Habs as [?|[?|Hp]]; [done|done|].
  by rewrite (getitem_absent (getitem_mask _ _)).
Qed.

Lemma group_rates_inv df s t p g r :
  Fair2.group_rates df s t p g = Ok r →
  s ∈ columns df ∧ t ∈ columns df ∧ p ∈ columns df
  ∧ (0 < positives df s t g)%nat ∧ (0 < negatives df s t g)%nat
  ∧ r = Fair2.mkRates
          (Qc_of_nat (true_positives df s t p g)
           / Qc_of_nat (positives df s t g))
          (Qc_of_nat (false_positives df s t p g)
           / Qc_of_nat (negatives df s t g)).
Proof.
  intros Hrun.
  destruct (decide (s ∈ columns df)) as [Hs|Hs];
    [|rewrite group_rates_absent in Hrun by auto; done].
  destruct (decide (t ∈ columns df)) as [Ht|Ht];
    [|rewrite group_rates_absent in Hrun by auto; done].
  destruct (decide (p ∈ columns df)) as [Hp|Hp];
    [|rewrite group_rates_absent in Hrun by auto; done].
  do 3 (split; [done|]).
  rewrite group_rates_eq in Hrun by done. unfold py_truediv in Hrun.
  destruct (decide (positives df s t g = 0%nat)) as [?|Hpos]; [done|].
  destruct (decide (negatives df s t g = 0%nat)) as [?|Hneg]; [done|].
  simpl in Hrun. injection Hrun as <-.
  split; [lia|]. split; [lia|done].
Qed.

Lemma metrics_loop_inv df s t p groups acc metrics g r :
  Fair2.metrics_loop df s t p groups acc = Ok metrics →
  metrics !! g = Some r →
  Fair2.group_rates df s t p g = Ok r ∨ acc !! g = Some r.
Proof.
  revert acc. induction groups as [|g' groups IH]; intros acc; simpl.
  - intros [= <-]. by right.
  - destruct (Fair2.group_rates df s t p g') as [r'|e] eqn:Hg'; [|done].
    simpl. intros Hloop Hlook.
    destruct (IH _ Hloop Hlook) as [?|Hacc]; [by left|].
    destruct (decide (g' = g)) as [->|Hne].
    + rewrite lookup_insert_eq in Hacc. injection Hacc as <-. by left.
    + rewrite lookup_insert_ne in Hacc by done. by right.
Qed.

Lemma metrics_loop_groups_ok df s t p groups acc metrics g :
  Fair2.metrics_loop df s t p groups acc = Ok metrics →
  g ∈ groups → is_ok (Fair2.group_rates df s t p g).
Proof.
  revert acc. induction groups as [|g' groups IH]; intros acc; simpl.
  - by intros _ ?%elem_of_nil.
  - destruct (Fair2.group_rates df s t p g') as [r'|e] eqn:Hg'; [|done].
    simpl. intros Hloop [->|Hin]%elem_of_cons; [by eexists|].
    by eapply IH.
Qed.

Lemma metrics_loop_raise_kind df s t p groups acc e :
  s ∈ columns df → t ∈ columns df → p ∈ columns df →
  Fair2.metrics_loop df s t p groups acc = Raise e → e = ZeroDivisionError.
Proof.
  intros Hs Ht Hp. revert acc.
  induction groups as [|g' groups IH]; intros acc; simpl; [done|].
  destruct (Fair2.group_rates df s t p g') as [r'|e'] eqn:Hg'; simpl.
  - apply IH.
  - intros [= <-]. exact (group_rates_raise df s t p g' e' Hs Ht Hp Hg').
Qed.

Lemma evaluate_inv df s t p metrics g r :
  Fair2.evaluate_model_performance df s t p = Ok metrics →
  metrics !! g = Some r →
  Fair2.group_rates df s t p g = Ok r.
Proof.
  unfold Fair2.evaluate_model_performance.
  destruct (getitem df s) as [scol|e]; [|done]. simpl.
  destruct (unique scol) as [groups|e]; [|done]. simpl.
  intros Hloop Hlook.
  by destruct (metrics_loop_inv _ _ _ _ _ _ _ _ _ Hloop Hlook)
    as [?|?%lookup_empty_Some].
Qed.

Lemma evaluate_ok_lookup df s t p :
  s ∈ columns df → t ∈ columns df → p ∈ columns df →
  scalar_column df s →
  (∀ g, occurs df s g →
     (0 < positives df s t g)%nat ∧ (0 < negatives df s t g)%nat) →
  ∃ metrics,
    Fair2.evaluate_model_performance df s t p = Ok metrics
    ∧ ∀ g, occurs df s g →
        metrics !! g
        = Some (Fair2.mkRates
                  (Qc_of_nat (true_positives df s t p g)
                   / Qc_of_nat (positives df s t g))
                  (Qc_of_nat (false_positives df s t p g)
                   / Qc_of_nat (negatives df s t g))).
Proof.
  intros Hs Ht Hp Hsc Hall. unfold Fair2.evaluate_model_performance.
  rewrite getitem_ok by done. unfold mbind, result_bind.
  rewrite unique_ok by done.
  destruct (metrics_loop_ok df s t p
              (uniq [] (key_of <$> (cell s <$> rows df))) ∅)
    as (metrics & Hrun & Hlook); try done.
  { intros g Hg. apply Hall. apply occurs_key; [done|].
    by apply elem_of_groups. }
  exists metrics. split; [done|].
  intros g Hg. rewrite Hlook, decide_True; [done|].
  apply elem_of_groups. by apply occurs_key.
Qed.

Lemma filter_and_le {A : Type} (f h : A → bool) (l : list A) :
  (length (filter (λ x, f x && h x) l) ≤ length (filter (λ x, f x) l))%nat.
Proof.
  induction l as [|x l IH]; [done|]. rewrite !filter_cons.
  destruct (f x), (h x); simpl; repeat case_decide; simpl; try done; lia.
Qed.

(** Every rate that the evaluator returns is in [0,1]. *)
Theorem evaluate_model_performance_bounds df s t p metrics g r :
  Fair2.evaluate_model_performance df s t p = Ok metrics →
  metrics !! g = Some r →
  0 ≤ Fair2.TPR r ≤ 1 ∧ 0 ≤ Fair2.FPR r ≤ 1.
Proof.
  intros Hrun Hlook.
  apply (evaluate_inv _ _ _ _ _ _ _ Hrun) in Hlook.
  apply group_rates_inv in Hlook as (_ & _ & _ & Hpos & Hneg & ->). simpl.
  split; apply ratio_bounds; try done; apply filter_and_le.
Qed.

Lemma evaluate_model_performance_bounds_witness :
  let r := Fair2.mkRates
             (Qc_of_nat (true_positives tbl2 "group" "y" "p" (SStr "B"))
              / Qc_of_nat (positives tbl2 "group" "y" (SStr "B")))
             (Qc_of_nat (false_positives tbl2 "group" "y" "p" (SStr "B"))
              / Qc_of_nat (negatives tbl2 "group" "y" (SStr "B"))) in
  0 ≤ Fair2.TPR r ≤ 1 ∧ 0 ≤ Fair2.FPR r ≤ 1.
Proof.
  destruct (evaluate_ok_lookup tbl2 "group" "y" "p")
    as (metrics & Hrun & Hlook); [by_eval|by_eval|by_eval|by_eval| |].
  - intros g (r & Hr & Hcell).
    repeat (apply elem_of_cons in Hr as [->|Hr]);
      [..|by apply elem_of_nil in Hr];
      vm_compute in Hcell; injection Hcell as <-; vm_compute; lia.
  - apply (evaluate_model_performance_bounds tbl2 "group" "y" "p" metrics
             (SStr "B")); [exact Hrun|].
    apply Hlook. eexists. split; [do 2 right; left|reflexivity].
Defined.

Lemma positives_null df s t : positives df s t SNull = 0%nat.
Proof.
  unfold positives.
  assert (filter (λ r, py_eq (cell s r) SNull) (rows df) = []) as ->; [|done].
  induction (rows df) as [|r l IH]; [done|].
  rewrite filter_cons, decide_False; [done|].
  destruct (cell s r) as [[]|]; simpl; intros H; exact H.
Qed.

(** A missing sensitive cell is a group of its own for [unique()], and no
    row is equal to it: the evaluator raises [ZeroDivisionError] as soon
    as the sensitive column has a missing cell, whereas the statistical
    parity evaluator leaves such rows out. *)
Theorem evaluate_model_performance_missing_cell df s t p r :
  s ∈ columns df → t ∈ columns df → p ∈ columns df →
  scalar_column df s → r ∈ rows df → cell s r = Null →
  Fair2.evaluate_model_performance df s t p = Raise ZeroDivisionError.
Proof.
  intros Hs Ht Hp Hsc Hr Hnull. unfold Fair2.evaluate_model_performance.
  rewrite getitem_ok by done. unfold mbind, result_bind.
  rewrite unique_ok by done.
  apply (metrics_loop_raise df s t p _ SNull); try done.
  - apply elem_of_groups. exists r. by rewrite Hnull.
  - apply positives_null.
Qed.

Lemma evaluate_model_performance_missing_cell_witness :
  Fair2.evaluate_model_performance null_group "group" "y" "p"
  = Raise ZeroDivisionError.
Proof.
  apply (evaluate_model_performance_missing_cell null_group "group" "y" "p"
           (mkrow [("group", Null); ("y", Num 1); ("p", Num 1)]));
    [by_eval|by_eval|by_eval|by_eval| |reflexivity].
  do 2 right. left.
Defined.

(** With the three columns in the table and no list in the sensitive
    column, the evaluator returns exactly when every group has a row with
    target 1 and a row with target 0; otherwise the exception is
    [ZeroDivisionError], also for a group that only lacks negatives. *)
Theorem evaluate_model_performance_returns_iff df s t p :
  s ∈ columns df → t ∈ columns df → p ∈ columns df →
  scalar_column df s →
  (is_ok (Fair2.evaluate_model_performance df s t p)
   ↔ ∀ g, occurs df s g →
       (0 < positives df s t g)%nat ∧ (0 < negatives df s t g)%nat)
  ∧ ∀ e, Fair2.evaluate_model_performance df s t p = Raise e →
         e = ZeroDivisionError.
Proof.
  intros Hs Ht Hp Hsc. unfold Fair2.evaluate_model_performance.
  rewrite getitem_ok by done. unfold mbind, result_bind.
  rewrite unique_ok by done. split; [split|].
  - intros [metrics Hloop] g Hg.
    destruct (metrics_loop_groups_ok _ _ _ _ _ _ _ g Hloop) as [r Hr].
    { apply elem_of_groups. by apply occurs_key. }
    by apply group_rates_inv in Hr as (_ & _ & _ & ? & ? & _).
  - intros Hall.
    destruct (metrics_loop_ok df s t p
                (uniq [] (key_of <$> (cell s <$> rows df))) ∅)
      as (metrics & Hrun & _); try done; [|by exists metrics].
    intros g Hg. apply Hall. apply occurs_key; [done|].
    by apply elem_of_groups.
  - intros e. by apply metrics_loop_raise_kind.
Qed.

Lemma evaluate_model_performance_returns_iff_witness :
  (is_ok (Fair2.evaluate_model_performance scenarioE "group" "y" "p")
   ↔ ∀ g, occurs scenarioE "group" g →
       (0 < positives scenarioE "group" "y" g)%nat
       ∧ (0 < negatives scenarioE "group" "y" g)%nat)
  ∧ ∀ e, Fair2.evaluate_model_performance scenarioE "group" "y" "p"
         = Raise e → e = ZeroDivisionError.
Proof.
  apply (evaluate_model_performance_returns_iff scenarioE "group" "y" "p");
    by_eval.
Defined.

Lemma uniq_cons_nil k ks : uniq [] (k :: ks) = k :: uniq [k] ks.
Proof. reflexivity. Qed.

(** The target and prediction columns are looked up inside the loop over
    the groups only: when one of them is not in the table the evaluator
    raises [KeyError] at the first group, but on a table without rows it
    returns the empty dict. *)
Theorem evaluate_model_performance_missing_column df s t p :
  s ∈ columns df → scalar_column df s →
  t ∉ columns df ∨ p ∉ columns df →
  Fair2.evaluate_model_performance df s t p
  = if decide (rows df = []) then Ok ∅ else Raise KeyError.
Proof.
  intros Hs Hsc Habs. unfold Fair2.evaluate_model_performance.
  rewrite getitem_ok by done. unfold mbind, result_bind.
  rewrite unique_ok by done.
  assert (∀ g, Fair2.group_rates df s t p g = Raise KeyError) as Hraise
    by (intros g; apply group_rates_absent; tauto).
  destruct (rows df) as [|r l]; [done|].
  rewrite decide_False by done.
  rewrite !fmap_cons, uniq_cons_nil. simpl. by rewrite Hraise.
Qed.

Lemma evaluate_model_performance_missing_column_witness :
  Fair2.evaluate_model_performance scenarioB "group" "y" "p"
  = (if decide (rows scenarioB = []) then Ok ∅ else Raise KeyError)
  ∧ Fair2.evaluate_model_performance no_rows "group" "y" "p"
    = (if decide (rows no_rows = []) then Ok ∅ else Raise KeyError).
Proof.
  split.
  - apply (evaluate_model_performance_missing_column scenarioB);
      [by_eval|by_eval|]. right. by_eval.
  - apply (evaluate_model_performance_missing_column no_rows);
      [by_eval|by_eval|]. right. by_eval.
Defined.

Lemma py_eq_zero_one x : py_eq x zero && py_eq x one = false.
Proof.
  destruct x as [[|q|str]|l]; try done. simpl.
  destruct (bool_decide (SNum q = zero)) eqn:H0; [|done].
  apply bool_decide_eq_true in H0 as [= ->]. done.
Qed.

Lemma filter_length_ext_in {A : Type} (P Q : A → Prop)
    `{!∀ x, Decision (P x), !∀ x, Decision (Q x)} (l : list A) :
  (∀ x, x ∈ l → (P x ↔ Q x)) →
  length (filter P l) = length (filter Q l).
Proof.
  intros Hext. induction l as [|x l IH]; [done|].
  rewrite !filter_cons.
  assert (length (filter P l) = length (filter Q l)) as Hl
    by (apply IH; intros y Hy; apply Hext; by right).
  pose proof (Hext x (list_elem_of_here x l)) as Hx.
  repeat case_decide; simpl; try done; try lia; tauto.
Qed.

(** Predictions that repeat the targets give every returned group a true
    positive rate of 1 and a false positive rate of 0. *)
Theorem evaluate_model_performance_perfect df s t p metrics g r :
  Fair2.evaluate_model_performance df s t p = Ok metrics →
  (∀ row, row ∈ rows df → cell p row = cell t row) →
  metrics !! g = Some r →
  Fair2.TPR r = 1 ∧ Fair2.FPR r = 0.
Proof.
  intros Hrun Hsame Hlook.
  apply (evaluate_inv _ _ _ _ _ _ _ Hrun) in Hlook.
  apply group_rates_inv in Hlook as (_ & _ & _ & Hpos & Hneg & ->). simpl.
  assert (true_positives df s t p g = positives df s t g) as ->.
  { unfold true_positives, positives. apply filter_length_ext_in.
    intros row [_ Hrow]%list_elem_of_filter.
    rewrite (Hsame row Hrow). by destruct (py_eq (cell t row) one). }
  assert (false_positives df s t p g = 0%nat) as ->.
  { unfold false_positives.
    rewrite (filter_length_ext_in _ (λ _, False)
               (filter (λ r, py_eq (cell s r) g) (rows df))).
    - by induction (filter _ (rows df)) as [|? ? IH];
        [|rewrite filter_cons, decide_False by tauto].
    - intros row [_ Hrow]%list_elem_of_filter.
      rewrite (Hsame row Hrow), py_eq_zero_one. done. }
  split.
  - unfold Qcdiv. apply Qcmult_inv_r.
    apply Qc_of_nat_pos in Hpos. by apply Qclt_not_eq in Hpos.
  - unfold Qcdiv. by rewrite Qc_of_nat_0, Qcmult_0_l.
Qed.

Lemma evaluate_model_performance_perfect_witness :
  let r := Fair2.mkRates
             (Qc_of_nat (true_positives perfect "group" "y" "p" (SStr "B"))
              / Qc_of_nat (positives perfect "group" "y" (SStr "B")))
             (Qc_of_nat (false_positives perfect "group" "y" "p" (SStr "B"))
              / Qc_of_nat (negatives perfect "group" "y" (SStr "B"))) in
  Fair2.TPR r = 1 ∧ Fair2.FPR r = 0.
Proof.
  destruct (evaluate_ok_lookup perfect "group" "y" "p")
    as (metrics & Hrun & Hlook); [by_eval|by_eval|by_eval|by_eval| |].
  - intros g (r & Hr & Hcell).
    repeat (apply elem_of_cons in Hr as [->|Hr]);
      [..|by apply elem_of_nil in Hr];
      vm_compute in Hcell; injection Hcell as <-; vm_compute; lia.
  - apply (evaluate_model_performance_perfect perfect "group" "y" "p"
             metrics (SStr "B")); [exact Hrun| |].
    + intros row Hrow.
      repeat (apply elem_of_cons in Hrow as [->|Hrow]);
        [..|by apply elem_of_nil in Hrow]; reflexivity.
    + apply Hlook. eexists. split; [do 2 right; left|reflexivity].
Defined.

End performance_outcomes.

(** * Further properties of the conditional parity evaluator *)

Section conditional_outcomes.

Implicit Types (df : DataFrame) (s c t : string) (a b : scalar).

Lemma mean_step_raise (ka kb : scalar) (x : value)
    (acc : gmap (scalar * scalar) (Qc * nat)) e :
  mean_step ka kb x acc = Raise e → e = TypeError.
Proof.
  destruct ka, kb, x as [[]|]; simpl; try done;
    try destruct (default _ _); simpl; congruence.
Qed.

Lemma mean_step_bad (ka kb : scalar) (x : value)
    (acc : gmap (scalar * scalar) (Qc * nat)) :
  ka ≠ SNull → kb ≠ SNull → numeric x = Raise TypeError →
  mean_step ka kb x acc = Raise TypeError.
Proof. intros Ha Hb Hx. destruct ka, kb; try done; simpl; by rewrite Hx. Qed.

Lemma mean_acc_raise l e : mean_acc l = Raise e → e = TypeError.
Proof.
  induction l as [|[[x y] z] l IH]; simpl; [done|].
  destruct (mean_acc l) as [acc|e']; simpl; [|intros [= <-]; by apply IH].
  destruct x as [ka|]; simpl; [|congruence].
  destruct y as [kb|]; simpl; [|congruence].
  apply mean_step_raise.
Qed.

Lemma mean_acc_bad l (ka kb : scalar) (x : value) :
  (Scalar ka, Scalar kb, x) ∈ l →
  ka ≠ SNull → kb ≠ SNull → numeric x = Raise TypeError →
  mean_acc l = Raise TypeError.
Proof.
  intros Hin Ha Hb Hx. induction l as [|[[x' y'] z'] l IH];
    [by apply elem_of_nil in Hin|].
  simpl. apply elem_of_cons in Hin as [[= <- <- <-]|Hin].
  - destruct (mean_acc l) as [acc|e] eqn:Hl; simpl.
    + by apply mean_step_bad.
    + by apply mean_acc_raise in Hl as ->.
  - by rewrite IH.
Qed.

(** A target that is a string or a list, in a row whose two keys are not
    missing, cannot be averaged: the evaluator raises [TypeError]. *)
Theorem conditional_statistical_parity_non_numeric df s t v c r ka kb :
  s ∈ columns df → t ∈ columns df → c ∈ columns df →
  r ∈ rows df →
  cell s r = Scalar ka → ka ≠ SNull →
  cell c r = Scalar kb → kb ≠ SNull →
  (∃ str, cell t r = Str str) ∨ (∃ l, cell t r = VList l) →
  Fair2.conditional_statistical_parity df s t v c = Raise TypeError.
Proof.
  intros Hs Ht Hc Hr Hka Ha Hkb Hb Hx.
  unfold Fair2.conditional_statistical_parity, groupby2_mean.
  rewrite !getitem_ok by done. unfold mbind, result_bind.
  rewrite zip3_rows.
  rewrite (mean_acc_bad _ ka kb (cell t r)); try done.
  - rewrite <-Hka, <-Hkb.
    by apply (list_elem_of_fmap_2 (λ r, (cell s r, cell c r, cell t r))).
  - by destruct Hx as [[str ->]|[l ->]].
Qed.

Lemma conditional_statistical_parity_non_numeric_witness :
  Fair2.conditional_statistical_parity text_target "group" "y" one "c"
  = Raise TypeError.
Proof.
  apply (conditional_statistical_parity_non_numeric text_target
           "group" "y" one "c"
           (mkrow [("group", Str "A"); ("y", Str "yes"); ("c", Str "v")])
           (SStr "A") (SStr "v"));
    [by_eval|by_eval|by_eval| |reflexivity|done|reflexivity|done|].
  - right. left.
  - left. by eexists.
Defined.

Lemma unstack_lookup (ser : gmap (scalar * scalar) (option Qc)) a :
  unstack ser !! a
  = if decide (∃ b, is_Some (ser !! (a, b))) then
      Some (map_imap (λ b _, Some (mjoin (ser !! (a, b))))
              (gset_to_gmap () (set_map snd (dom ser))))
    else None.
Proof.
  unfold unstack. rewrite map_lookup_imap, lookup_gset_to_gmap.
  assert (a ∈ (set_map fst (dom ser) : gset scalar)
          ↔ ∃ b, is_Some (ser !! (a, b))) as Hin.
  { rewrite elem_of_map. split.
    - intros ([a' b] & -> & Hdom). exists b. by apply elem_of_dom.
    - intros [b Hb]. exists (a, b). split; [done|]. by apply elem_of_dom. }
  case_guard as Ha; simpl.
  - rewrite decide_True; [done|]. by apply Hin.
  - rewrite decide_False; [done|]. intros Hex. by apply Ha, Hin.
Qed.

Lemma unstack_row_lookup (ser : gmap (scalar * scalar) (option Qc)) a b :
  map_imap (λ b _, Some (mjoin (ser !! (a, b))))
    (gset_to_gmap () (set_map snd (dom ser))) !! b
  = if decide (∃ a', is_Some (ser !! (a', b))) then
      Some (mjoin (ser !! (a, b)))
    else None.
Proof.
  rewrite map_lookup_imap, lookup_gset_to_gmap.
  assert (b ∈ (set_map snd (dom ser) : gset scalar)
          ↔ ∃ a', is_Some (ser !! (a', b))) as Hin.
  { rewrite elem_of_map. split.
    - intros ([a' b'] & -> & Hdom). exists a'. by apply elem_of_dom.
    - intros [a' Ha']. exists (a', b). split; [done|]. by apply elem_of_dom. }
  case_guard as Hb; simpl.
  - rewrite decide_True; [done|]. by apply Hin.
  - rewrite decide_False; [done|]. intros Hex. by apply Hb, Hin.
Qed.

Lemma series_entry_iff df s c t
    (ser : gmap (scalar * scalar) (option Qc)) :
  (∀ a b,
     ser !! (a, b) =
       if decide (a ≠ SNull ∧ b ≠ SNull
                  ∧ 0 < length (cell_rows df s c a b))%nat
       then Some (Some (cell_mean df s c t a b)) else None) →
  ∀ a b, is_Some (ser !! (a, b))
         ↔ a ≠ SNull ∧ b ≠ SNull ∧ (0 < length (cell_rows df s c a b))%nat.
Proof.
  intros Hlook a b. rewrite Hlook.
  destruct (decide _) as [Hyes|Hno]; [by split|].
  split; [by intros [? ?]|done].
Qed.

(** The frame returned after [unstack()] is rectangular.  Its rows are
    the sensitive values, and its columns the control values, of the rows
    of the table in which both are present; every row of the frame has all
    the columns, with [NaN] where the pair has no row of the table. *)
Theorem conditional_statistical_parity_frame df s t v c :
  s ∈ columns df → t ∈ columns df → c ∈ columns df →
  scalar_column df s → scalar_column df c → numeric_column df t →
  ∃ M,
    Fair2.conditional_statistical_parity df s t v c = Ok M
    ∧ (∀ a, is_Some (M !! a)
            ↔ ∃ b, a ≠ SNull ∧ b ≠ SNull
                   ∧ (0 < length (cell_rows df s c a b))%nat)
    ∧ (∀ a row b, M !! a = Some row →
         (is_Some (row !! b)
          ↔ ∃ a', a' ≠ SNull ∧ b ≠ SNull
                  ∧ (0 < length (cell_rows df s c a' b))%nat)
         ∧ ((length (cell_rows df s c a b) = 0)%nat →
            row !! b = None ∨ row !! b = Some None)).
Proof.
  intros Hs Ht Hc Hss Hsc Hnt. unfold Fair2.conditional_statistical_parity.
  destruct (groupby2_mean_ok df s c t) as (ser & -> & Hlook); try done.
  pose proof (series_entry_iff df s c t ser Hlook) as Hsome.
  eexists. split; [done|]. split.
  - intros a. rewrite unstack_lookup.
    destruct (decide _) as [[b Hb]|Hno].
    + split; [|by eexists]. intros _. exists b. by apply Hsome.
    + split; [by intros [? ?]|]. intros (b & Hb). destruct Hno.
      exists b. by apply Hsome.
  - intros a row b. rewrite unstack_lookup.
    destruct (decide _) as [_|_]; [|done]. intros [= <-].
    rewrite unstack_row_lookup. split.
    + destruct (decide _) as [[a' Ha']|Hno].
      * split; [|by eexists]. intros _. exists a'. by apply Hsome.
      * split; [by intros [? ?]|]. intros (a' & Ha'). destruct Hno.
        exists a'. by apply Hsome.
    + intros Hzero. destruct (decide _) as [_|_]; [|by left].
      right. rewrite Hlook, decide_False; [done|]. intros (_ & _ & ?). lia.
Qed.

Lemma conditional_statistical_parity_frame_witness :
  ∃ M,
    Fair2.conditional_statistical_parity tbl2 "group" "y" one "c" = Ok M
    ∧ (∀ a, is_Some (M !! a)
            ↔ ∃ b, a ≠ SNull ∧ b ≠ SNull
                   ∧ (0 < length (cell_rows tbl2 "group" "c" a b))%nat)
    ∧ (∀ a row b, M !! a = Some row →
         (is_Some (row !! b)
          ↔ ∃ a', a' ≠ SNull ∧ b ≠ SNull
                  ∧ (0 < length (cell_rows tbl2 "group" "c" a' b))%nat)
         ∧ ((length (cell_rows tbl2 "group" "c" a b) = 0)%nat →
            row !! b = None ∨ row !! b = Some None)).
Proof.
  apply (conditional_statistical_parity_frame tbl2 "group" "y" one "c");
    by_eval.
Defined.

Lemma Qc_of_nat_S n : Qc_of_nat (S n) = Qc_of_nat n + 1.
Proof.
  unfold Qc_of_nat. rewrite Nat2Z.inj_succ, <-Z.add_1_r, Z2Qc_inj_add.
  by rewrite Z2Qc_inj_1.
Qed.

Lemma target_sum_bounds t (rs : list (gmap string value)) (lo hi : Qc) :
  (∀ r, r ∈ rs → lo ≤ num_of (cell t r) ≤ hi) →
  Qc_of_nat (length rs) * lo ≤ target_sum t rs
  ∧ target_sum t rs ≤ Qc_of_nat (length rs) * hi.
Proof.
  intros Hall. induction rs as [|r rs IH].
  - simpl. by rewrite Qc_of_nat_0, !Qcmult_0_l.
  - destruct IH as [IHlo IHhi]; [intros r' Hr'; apply Hall; by right|].
    destruct (Hall r) as [Hlo Hhi]; [left|].
    cbn [length target_sum foldr]. fold (target_sum t rs).
    rewrite Qc_of_nat_S, !Qcmult_plus_distr_l, !Qcmult_1_l.
    split; by apply Qcplus_le_compat.
Qed.

Lemma mean_bounds (n : nat) (sm lo hi : Qc) :
  (0 < n)%nat → Qc_of_nat n * lo ≤ sm → sm ≤ Qc_of_nat n * hi →
  lo ≤ sm / Qc_of_nat n ≤ hi.
Proof.
  intros Hn Hlo Hhi. pose proof (Qc_of_nat_pos n Hn) as Hpos.
  assert (Qc_of_nat n ≠ 0) as Hnz by (intros Hz; by rewrite Hz in Hpos).
  pose proof (Qcinv_pos _ Hpos) as Hinv. apply Qclt_le_weak in Hinv.
  assert (∀ x, Qc_of_nat n * x * / Qc_of_nat n = x) as Hcancel.
  { intros x. rewrite (Qcmult_comm (Qc_of_nat n) x), <-Qcmult_assoc.
    by rewrite Qcmult_inv_r, Qcmult_1_r. }
  unfold Qcdiv. split.
  - rewrite <-(Hcancel lo). by apply Qcmult_le_mono_nonneg_r.
  - rewrite <-(Hcancel hi). by apply Qcmult_le_mono_nonneg_r.
Qed.

(** Every number of the matrix lies between any two bounds of the
    targets: with targets 0 and 1 it is a rate in [0,1]. *)
Theorem conditional_statistical_parity_bounds df s t v c (lo hi : Qc) :
  s ∈ columns df → t ∈ columns df → c ∈ columns df →
  scalar_column df s → scalar_column df c → numeric_column df t →
  (∀ r, r ∈ rows df → lo ≤ num_of (cell t r) ≤ hi) →
  ∃ M,
    Fair2.conditional_statistical_parity df s t v c = Ok M
    ∧ ∀ a b x, entry M a b = Some x → lo ≤ x ≤ hi.
Proof.
  intros Hs Ht Hc Hss Hsc Hnt Hall.
  unfold Fair2.conditional_statistical_parity.
  destruct (groupby2_mean_ok df s c t) as (ser & -> & Hlook); try done.
  eexists. split; [done|]. intros a b x.
  rewrite entry_unstack, Hlook.
  destruct (decide _) as [(_ & _ & Hpos)|_]; [|done]. simpl. intros [= <-].
  unfold cell_mean.
  destruct (target_sum_bounds t (cell_rows df s c a b) lo hi) as [Hlo Hhi].
  { intros r [_ Hr]%list_elem_of_filter. by apply Hall. }
  by apply mean_bounds.
Qed.

Lemma conditional_statistical_parity_bounds_witness :
  ∃ M,
    Fair2.conditional_statistical_parity tbl2 "group" "y" one "c" = Ok M
    ∧ ∀ a b x, entry M a b = Some x → 0 ≤ x ≤ 1.
Proof.
  apply (conditional_statistical_parity_bounds tbl2 "group" "y" one "c");
    [by_eval..|].
  intros r Hr.
  repeat (apply elem_of_cons in Hr as [->|Hr]);
    [..|by apply elem_of_nil in Hr]; by vm_compute.
Defined.

End conditional_outcomes.
